(** * kindle-sender: a shallow embedding of the token lifecycle
    ([AzureService]), the mail gateway client ([KindleService]), the file
    service and the delivery orchestrator ([SendService]).

    Every outside effect of the program (file system, clock, HTTP calls,
    the local callback listener) is an oracle of a [World]; every effect
    the program performs is recorded in a trace of [Event]s, so that
    properties such as "no network call" or "no credential write" are
    statements about the trace. *)

From Stdlib Require Import ZArith List String Ascii Bool Lia.
From Stdlib Require Import Strings.Byte DecimalString.
Import ListNotations.
Open Scope Z_scope.
Open Scope string_scope.

(* ------------------------------------------------------------------ *)
(** ** Rust's [Result] *)

Inductive Result (A E : Type) : Type :=
| Ok : A -> Result A E
| Err : E -> Result A E.
Arguments Ok {A E} _.
Arguments Err {A E} _.

Definition map_err {A E F} (f : E -> F) (r : Result A E) : Result A F :=
  match r with Ok a => Ok a | Err e => Err (f e) end.

(* ------------------------------------------------------------------ *)
(** ** Models ([src/models]) *)

(** [models/error.rs] *)
Record KindleError := { message : string }.

(** [models/azure.rs]: [expires_in] is a [u32], [expires_at] an [i64]
    Unix timestamp; both are kept as [Z]. *)
Record TokenResponse := {
  access_token : string;
  refresh_token : option string;
  id_token : option string;
  expires_in : Z;
  token_type : string;
  expires_at : option Z
}.

(** [TokenResponse::is_token_valid]; [now] is [Utc::now().timestamp()]
    read inside the method. *)
Definition is_token_valid (self : TokenResponse) (now : Z) : bool :=
  match self.(expires_at) with
  | Some expires_at => Z.ltb now expires_at
  | None => false
  end.

(** [models/kindle.rs] *)
Record EmailAddress := { address : string }.
Record Recipient := { email_address : EmailAddress }.
Record Body := { body_content_type : string; content : string }.
Record Attachment := {
  odata_type : string;
  name : string;
  att_content_type : string;
  content_bytes : string
}.
Record Message := {
  subject : string;
  body : Body;
  to_recipients : list Recipient;
  attachments : list Attachment
}.
Record Email := { msg : Message; save_to_sent_items : bool }.

(** [models/config.rs] *)
Record AzureConfig := {
  client_id : string;
  client_secret : string;
  tenant_id : string
}.
Record Config := {
  callback_uri : string;
  ebook_to_send_directory : string;
  ebook_sent_directory : string;
  receivers : list string;
  azure : AzureConfig
}.

(* ------------------------------------------------------------------ *)
(** ** Effects *)

(** What the program does to the outside world, in order. *)
Inductive Event :=
| EvReadTokenFile                       (* read_token_from_file *)
| EvTokenRequest (grant_type : string)  (* POST to the token endpoint *)
| EvWriteTokenFile (t : TokenResponse)  (* write_token_to_file *)
| EvShowAuthUrl (url : string)          (* info! of the authorization URL *)
| EvListen                              (* tokio::spawn(warp::serve(..)) *)
| EvAwaitCode                           (* rx.await *)
| EvListDir (dir : string)              (* std::fs::read_dir *)
| EvReadFile (path : string)            (* File::open + read_to_end *)
| EvSendMail (token : string) (e : Email) (* POST /me/sendMail *)
| EvCreateDir (dir : string)            (* fs::create_dir_all *)
| EvMove (src dst : string).            (* fs::rename *)

Definition is_network_call (e : Event) : bool :=
  match e with EvTokenRequest _ | EvSendMail _ _ => true | _ => false end.

Definition is_token_write (e : Event) : bool :=
  match e with EvWriteTokenFile _ => true | _ => false end.

Definition is_listener_start (e : Event) : bool :=
  match e with EvListen => true | _ => false end.

(** An HTTP response of the mail gateway: its status code and the result
    of reading its body as UTF-8 text. *)
Record Response := { status : Z; resp_body : Result string string }.

Definition is_success (s : Z) : bool := ((200 <=? s) && (s <? 300))%Z.

(** A directory entry as [read_dir] yields it: an error, or its path
    (already [to_string_lossy]'d) and whether it [is_file]. *)
Definition DirEntry := Result (string * bool) string.

(** The outside world, one oracle per external operation. *)
Record World := {
  w_token_file : Result TokenResponse string;   (* read_token_from_file *)
  w_now_check : Z;                              (* now in is_token_valid *)
  w_now_stamp : Z;                              (* now when stamping expires_at *)
  w_refresh : string -> Result TokenResponse string;  (* refresh grant *)
  w_exchange : string -> Result TokenResponse string; (* code grant *)
  w_write_token : TokenResponse -> Result unit string;
  w_code : Result string unit;                  (* oneshot receiver *)
  w_read_dir : string -> Result (list DirEntry) string;
  w_open : string -> Result unit string;
  w_read_to_end : string -> Result (list byte) string;
  w_post_mail : string -> Email -> Result Response string;
  w_create_dir_all : string -> Result unit string;
  w_rename : string -> string -> Result unit string;
  w_config : Result Config KindleError           (* ConfigService::read_config *)
}.

(** The program's computations: the trace of events they emit, and
    their result. *)
Definition M (A : Type) : Type := list Event * Result A KindleError.

Definition ret {A} (a : A) : M A := ([], Ok a).
Definition fail {A} (e : KindleError) : M A := ([], Err e).
Definition emit (ev : Event) : M unit := ([ev], Ok tt).

Definition bind {A B} (m : M A) (k : A -> M B) : M B :=
  let (t1, r) := m in
  match r with
  | Ok a => let (t2, r2) := k a in ((t1 ++ t2)%list, r2)
  | Err e => (t1, Err e)
  end.

Notation "x <- m ;; k" := (bind m (fun x => k))
  (at level 61, m at next level, right associativity).
Notation "m ;;; k" := (bind m (fun _ => k))
  (at level 61, right associativity).

(** [expr.map_err(f)?] on a fallible external call. *)
Definition lift {A E} (f : E -> KindleError) (r : Result A E) : M A :=
  ([], map_err f r).

Definition err_with (prefix : string) (e : string) : KindleError :=
  {| message := prefix ++ e |}.

(* ------------------------------------------------------------------ *)
(** ** [base64::engine::general_purpose::STANDARD]

    The attachment content is [general_purpose::STANDARD.encode(&buffer)]:
    RFC 4648 base64, standard alphabet, with [=] padding.  The encoder
    takes the bytes three at a time as a 24-bit group and emits four
    6-bit indices into the alphabet; a final group of one or two bytes is
    zero-extended and padded.  [base64_decode] is the inverse RFC 4648
    decoding of the same engine. *)

Definition b64_alphabet : list ascii :=
  list_ascii_of_string
    "ABCDEFGHIJKLMNOPQRSTUVWXYZabcdefghijklmnopqrstuvwxyz0123456789+/".

Definition byte_val (b : byte) : Z := Z.of_N (Byte.to_N b).

Definition to_byte (z : Z) : byte :=
  match Byte.of_N (Z.to_N z) with Some b => b | None => x00 end.

(** The 24-bit group [b0 b1 b2]. *)
Definition group (b0 b1 b2 : byte) : Z :=
  Z.shiftl (byte_val b0) 16 + Z.shiftl (byte_val b1) 8 + byte_val b2.

(** Its four 6-bit indices, most significant first. *)
Definition sextets (n : Z) : list Z :=
  [Z.land (Z.shiftr n 18) 63; Z.land (Z.shiftr n 12) 63;
   Z.land (Z.shiftr n 6) 63; Z.land n 63].

Definition b64_char (s : Z) : ascii := nth (Z.to_nat s) b64_alphabet "A"%char.

Definition pad : ascii := "="%char.

Fixpoint encode_chars (bs : list byte) : list ascii :=
  match bs with
  | b0 :: b1 :: b2 :: rest =>
      (map b64_char (sextets (group b0 b1 b2)) ++ encode_chars rest)%list
  | [b0; b1] => (firstn 3 (map b64_char (sextets (group b0 b1 x00))) ++ [pad])%list
  | [b0] => (firstn 2 (map b64_char (sextets (group b0 x00 x00))) ++ [pad; pad])%list
  | [] => []
  end.

Definition base64_encode (bs : list byte) : string :=
  string_of_list_ascii (encode_chars bs).

(** Decoding. *)
Fixpoint index_in (c : ascii) (l : list ascii) (i : Z) : option Z :=
  match l with
  | [] => None
  | d :: l' => if Ascii.eqb c d then Some i else index_in c l' (i + 1)
  end.

Definition b64_index (c : ascii) : option Z := index_in c b64_alphabet 0.

(** The three bytes of the group with indices [s0 s1 s2 s3]. *)
Definition quad_bytes (s0 s1 s2 s3 : Z) : list byte :=
  let m := s0 * 2 ^ 18 + s1 * 2 ^ 12 + s2 * 2 ^ 6 + s3 in
  [to_byte (m / 2 ^ 16); to_byte ((m / 2 ^ 8) mod 256); to_byte (m mod 256)].

Definition is_nil {A} (l : list A) : bool :=
  match l with [] => true | _ => false end.

Fixpoint decode_chars (cs : list ascii) : option (list byte) :=
  match cs with
  | [] => Some []
  | c0 :: c1 :: c2 :: c3 :: rest =>
      match b64_index c0, b64_index c1 with
      | Some s0, Some s1 =>
          if is_nil rest && Ascii.eqb c2 pad && Ascii.eqb c3 pad then
            Some (firstn 1 (quad_bytes s0 s1 0 0))
          else
            match b64_index c2 with
            | None => None
            | Some s2 =>
                if is_nil rest && Ascii.eqb c3 pad then
                  Some (firstn 2 (quad_bytes s0 s1 s2 0))
                else
                  match b64_index c3, decode_chars rest with
                  | Some s3, Some bs => Some (quad_bytes s0 s1 s2 s3 ++ bs)%list
                  | _, _ => None
                  end
            end
      | _, _ => None
      end
  | _ => None
  end.

Definition base64_decode (s : string) : option (list byte) :=
  decode_chars (list_ascii_of_string s).

(* ------------------------------------------------------------------ *)
(** ** [services/azure_service.rs] *)

Section Program.
Variable w : World.

Record AzureService := {
  az_client_id : string;
  az_client_secret : string;
  az_tenant_id : string;
  az_callback_url : string
}.

(** [read_token_from_file]: reads [~/.kindle_sender/auth.json]. *)
Definition read_token_from_file : M TokenResponse :=
  emit EvReadTokenFile ;;;
  match w.(w_token_file) with
  | Ok t => ret t
  | Err e => fail (err_with "" e)
  end.

(** [write_token_to_file]; its error is a [Box<dyn Error>]. *)
Definition write_token_to_file (t : TokenResponse) : list Event * Result unit string :=
  ([EvWriteTokenFile t], w.(w_write_token) t).

(** [refresh_access_token] and [exchange_code_for_token]: one POST each
    to the token endpoint, the parsed JSON body returned as it is. *)
Definition refresh_access_token (rt : string) : list Event * Result TokenResponse string :=
  ([EvTokenRequest "refresh_token"], w.(w_refresh) rt).

Definition exchange_code_for_token (code : string) : list Event * Result TokenResponse string :=
  ([EvTokenRequest "authorization_code"], w.(w_exchange) code).

(** [expr.await.map_err(f)?] on one of the calls above. *)
Definition try_with {A} (f : string -> KindleError) (c : list Event * Result A string) : M A :=
  let (t, r) := c in (t, map_err f r).

Definition auth_url (self : AzureService) : string :=
  "https://login.microsoftonline.com/" ++ self.(az_tenant_id)
  ++ "/oauth2/v2.0/authorize?client_id=" ++ self.(az_client_id)
  ++ "&response_type=code&redirect_uri=" ++ self.(az_callback_url)
  ++ "&response_mode=query&scope=offline_access%20Mail.Send".

(** Lines 96-148: the interactive authorization-code flow. *)
Definition interactive_flow (self : AzureService) : M string :=
  emit (EvShowAuthUrl (auth_url self)) ;;;
  emit EvListen ;;;
  emit EvAwaitCode ;;;
  auth_code <- lift (fun _ => {| message := "Failed to receive auth code" |})
                    w.(w_code) ;;
  token_response <- try_with (err_with "Error exchanging code for token: ")
                             (exchange_code_for_token auth_code) ;;
  let token_response :=
    {| access_token := token_response.(access_token);
       refresh_token := token_response.(refresh_token);
       id_token := token_response.(id_token);
       expires_in := token_response.(expires_in);
       token_type := token_response.(token_type);
       expires_at := Some (w.(w_now_stamp) + token_response.(expires_in)) |} in
  try_with (err_with "Error writing token to file: ")
           (write_token_to_file token_response) ;;;
  ret token_response.(access_token).

(** [AzureService::authenticate]. *)
Definition authenticate (self : AzureService) : M string :=
  let (t0, r0) := read_token_from_file in
  let (t1, r1) :=
    match r0 with
    | Ok token_response =>
        if is_token_valid token_response w.(w_now_check) then
          ret token_response.(access_token)
        else
          match token_response.(refresh_token) with
          | Some refresh_token =>
              new_token_response <-
                try_with (err_with "Error refreshing token: ")
                         (refresh_access_token refresh_token) ;;
              try_with (err_with "Error writing token to file: ")
                       (write_token_to_file new_token_response) ;;;
              ret new_token_response.(access_token)
          | None => interactive_flow self
          end
    | Err _ => interactive_flow self
    end in
  ((t0 ++ t1)%list, r1).

(* ------------------------------------------------------------------ *)
(** ** [services/kindle_service.rs] *)

Record KindleService := { emails : list string }.

(** [str::split(c)]: the pieces between the occurrences of [c]; there is
    always at least one piece. *)
Fixpoint split_on (c : ascii) (s : string) : list string :=
  match s with
  | EmptyString => [""]
  | String x rest =>
      if Ascii.eqb x c then "" :: split_on c rest
      else match split_on c rest with
           | [] => [String x ""]
           | h :: t => String x h :: t
           end
  end.

(** [Iterator::next_back] on the pieces: the last one. *)
Fixpoint next_back {A} (l : list A) : option A :=
  match l with
  | [] => None
  | [x] => Some x
  | _ :: t => next_back t
  end.

Definition ok_or {A E} (o : option A) (e : E) : Result A E :=
  match o with Some a => Ok a | None => Err e end.

(** The payload built by [send_file] (lines 69-103). *)
Definition build_email (self : KindleService) (filename content_bytes : string) : Email :=
  let to_recipients :=
    map (fun email => {| email_address := {| address := email |} |}) self.(emails) in
  let attachment :=
    {| odata_type := "#microsoft.graph.fileAttachment";
       name := filename;
       att_content_type := "application/octet-stream";
       content_bytes := content_bytes |} in
  let message :=
    {| subject := "Your Kindle File";
       body := {| body_content_type := "Text"; content := "" |};
       to_recipients := to_recipients;
       attachments := [attachment] |} in
  {| msg := message; save_to_sent_items := true |}.

(** [KindleService::send_file]. *)
Definition send_file (self : KindleService) (access_token : string) (file_path : string)
  : M unit :=
  emit (EvReadFile file_path) ;;;
  lift (err_with "Failed to open file: ") (w.(w_open) file_path) ;;;
  buffer <- lift (err_with "Failed to read file: ") (w.(w_read_to_end) file_path) ;;
  let content_bytes := base64_encode buffer in
  filename <- lift (fun _ : unit => {| message := "Failed to get filename from file path" |})
                   (ok_or (next_back (split_on "/"%char file_path)) tt) ;;
  let email_payload := build_email self filename content_bytes in
  emit (EvSendMail access_token email_payload) ;;;
  response <- lift (err_with "Failed to send email: ")
                   (w.(w_post_mail) access_token email_payload) ;;
  if is_success response.(status) then ret tt
  else
    message <- lift (err_with "Failed to read response: ") response.(resp_body) ;;
    fail {| message := "Failed to send email: " ++ message |}.

(* ------------------------------------------------------------------ *)
(** ** [services/file_service.rs] *)

(** [Path::file_name]: the last component of the path once empty and [.]
    components are dropped, unless it is [..] or there is none. *)
Definition path_file_name (p : string) : option string :=
  match next_back (filter (fun c => negb (String.eqb c "" || String.eqb c "."))
                          (split_on "/"%char p)) with
  | Some c => if String.eqb c ".." then None else Some c
  | None => None
  end.

(** [Path::join] of a relative file name. *)
Definition path_join (dir file : string) : string :=
  match next_back (list_ascii_of_string dir) with
  | None => file
  | Some c => if Ascii.eqb c "/"%char then dir ++ file else dir ++ "/" ++ file
  end.

(** The files among the entries of [read_dir]; the first erroneous entry
    aborts the listing. *)
Fixpoint collect_files (entries : list DirEntry) : Result (list string) KindleError :=
  match entries with
  | [] => Ok []
  | Err e :: _ => Err (err_with "Error reading path: " e)
  | Ok (path, is_file) :: rest =>
      match collect_files rest with
      | Ok files => Ok (if is_file then path :: files else files)
      | Err e => Err e
      end
  end.

Definition list_file_in_directory (directory : string) : M (list string) :=
  emit (EvListDir directory) ;;;
  paths <- lift (err_with "Error reading directory: ") (w.(w_read_dir) directory) ;;
  ([], collect_files paths).

Definition move_file (source destination_dir : string) : M unit :=
  emit (EvCreateDir destination_dir) ;;;
  lift (err_with "Failed to create destination directory: ")
       (w.(w_create_dir_all) destination_dir) ;;;
  filename <- lift (fun _ : unit => {| message := "Invalid source path: no filename" |})
                   (ok_or (path_file_name source) tt) ;;
  let destination := path_join destination_dir filename in
  emit (EvMove source destination) ;;;
  lift (err_with "Failed to move file: ") (w.(w_rename) source destination).

(* ------------------------------------------------------------------ *)
(** ** [services/send_service.rs] *)

Record SendService := {
  azure_service : AzureService;
  kindle_service : KindleService;
  config : Config
}.

(** Run [m]; continue with [k_ok] or [k_err] on its outcome, keeping its
    events ([match m { Ok(_) => .., Err(e) => .. }]). *)
Definition handle {A B} (m : M A) (k_ok : A -> M B) (k_err : KindleError -> M B) : M B :=
  let (t, r) := m in
  let (t', r') := match r with Ok a => k_ok a | Err e => k_err e end in
  ((t ++ t')%list, r').

(** The [for file_path in &files] loop of [send_files] (lines 86-117),
    with [success_count] and [failure_count] as accumulators.  The
    counters are [i32] in the source; they are kept as [nat] here (a
    wrap-around would need 2^31 files). *)
Fixpoint send_loop (self : SendService) (access_token : string) (files : list string)
    (success_count failure_count : nat) : M (nat * nat) :=
  match files with
  | [] => ret (success_count, failure_count)
  | file_path :: rest =>
      handle (send_file self.(kindle_service) access_token file_path)
        (fun _ =>
           handle (move_file file_path self.(config).(ebook_sent_directory))
             (fun _ => send_loop self access_token rest (S success_count) failure_count)
             (fun _ => send_loop self access_token rest success_count (S failure_count)))
        (fun _ => send_loop self access_token rest success_count (S failure_count))
  end.

Definition nat_to_string (n : nat) : string :=
  NilZero.string_of_uint (Nat.to_uint n).

(** [SendService::send_files]. *)
Definition send_files (self : SendService) : M unit :=
  files <- list_file_in_directory self.(config).(ebook_to_send_directory) ;;
  if is_nil files then ret tt
  else
    access_token <- authenticate self.(azure_service) ;;
    counts <- send_loop self access_token files 0 0 ;;
    let (success_count, failure_count) := counts in
    if (0 <? failure_count)%nat then
      fail {| message := "Failed to process " ++ nat_to_string failure_count ++ " files" |}
    else ret tt.

(* ------------------------------------------------------------------ *)
(** ** [commands/send.rs] and [main.rs] *)

Definition send_service_of (config : Config) : SendService :=
  {| azure_service :=
       {| az_client_id := config.(azure).(client_id);
          az_client_secret := config.(azure).(client_secret);
          az_tenant_id := config.(azure).(tenant_id);
          az_callback_url := config.(callback_uri) |};
     kindle_service := {| emails := config.(receivers) |};
     config := config |}.

Definition execute_send_command : M unit :=
  config <- ([], w.(w_config)) ;;
  send_files (send_service_of config).

(** [main] for the [send] subcommand: [std::process::exit(1)] on an
    error, a normal return (exit status 0) otherwise. *)
Definition exit_code : Z :=
  match snd execute_send_command with
  | Err _ => 1
  | Ok _ => 0
  end.

End Program.

(* ================================================================== *)
(** * Properties *)

(** Sample values used by the concrete runs below. *)
Definition mk_token (a : string) (ea : option Z) (rt : option string) : TokenResponse :=
  {| access_token := a; refresh_token := rt; id_token := None;
     expires_in := 3600; token_type := "Bearer"; expires_at := ea |}.

Definition sample_config : Config :=
  {| callback_uri := "http://localhost:8080/callback";
     ebook_to_send_directory := "to_send";
     ebook_sent_directory := "sent";
     receivers := ["reader@kindle.com"];
     azure := {| client_id := "cid"; client_secret := "secret"; tenant_id := "common" |} |}.

Definition sample_service : SendService := send_service_of sample_config.

Definition sample_azure : AzureService := sample_service.(azure_service).

(** A world with a stored credential [stored], a refresh grant answering
    [refreshed], and the two books of the spec's example, the gateway
    rejecting the file named [rejected] with status 413. *)
Definition sample_world (stored : Result TokenResponse string)
    (refreshed : Result TokenResponse string) (rejected : string) : World :=
  {| w_token_file := stored;
     w_now_check := 1000; w_now_stamp := 1000;
     w_refresh := fun _ => refreshed;
     w_exchange := fun _ => Ok (mk_token "interactive" None (Some "r1"));
     w_write_token := fun _ => Ok tt;
     w_code := Ok "the-code";
     w_read_dir := fun _ => Ok [Ok ("to_send/book1.epub", true);
                                Ok ("to_send/book2.epub", true)];
     w_open := fun _ => Ok tt;
     w_read_to_end := fun p =>
       if String.eqb p "to_send/book1.epub" then Ok [x01; x02; x03; x04; x05]
       else Ok [x01; x02; x03; x04; x05; x06; x07; x08; x09; x0a];
     w_post_mail := fun _ e =>
       if existsb (fun a => String.eqb a.(name) rejected) e.(msg).(attachments)
       then Ok {| status := 413; resp_body := Ok "Request Entity Too Large" |}
       else Ok {| status := 202; resp_body := Ok "" |};
     w_create_dir_all := fun _ => Ok tt;
     w_rename := fun _ _ => Ok tt;
     w_config := Ok sample_config |}.

(* ------------------------------------------------------------------ *)
(** ** The token lifecycle *)

(** C7: a credential without [expires_at] is never valid; otherwise it is
    valid exactly when the current time is strictly before [expires_at]. *)
Theorem is_token_valid_spec :
  (forall t now, t.(expires_at) = None -> is_token_valid t now = false) /\
  (forall t now,
     is_token_valid t now = true <-> exists e, t.(expires_at) = Some e /\ now < e).
Proof.
  split.
  - intros t now H. unfold is_token_valid. now rewrite H.
  - intros t now. unfold is_token_valid.
    destruct (expires_at t) as [e|]; split.
    + intros H. exists e. split; [reflexivity | now apply Z.ltb_lt].
    + intros [e' [He Hlt]]. injection He as <-. now apply Z.ltb_lt.
    + discriminate.
    + intros [e' [He _]]. discriminate.
Qed.

(** C3: a stored credential whose [expires_at] lies strictly in the
    future is returned at once: the only event is the read of the token
    file, so no network call and no write of the credential file. *)
Theorem authenticate_cached_valid (w : World) (self : AzureService)
    (t : TokenResponse) (e : Z) :
  w.(w_token_file) = Ok t -> t.(expires_at) = Some e -> w.(w_now_check) < e ->
  authenticate w self = ([EvReadTokenFile], Ok t.(access_token)) /\
  forallb (fun ev => negb (is_network_call ev || is_token_write ev))
          (fst (authenticate w self)) = true.
Proof.
  intros Hf He Hlt.
  assert (Hv : is_token_valid t (w_now_check w) = true)
    by (unfold is_token_valid; rewrite He; now apply Z.ltb_lt).
  assert (Ha : authenticate w self = ([EvReadTokenFile], Ok t.(access_token))).
  { unfold authenticate, read_token_from_file. rewrite Hf. simpl. now rewrite Hv. }
  rewrite Ha. split; reflexivity.
Qed.

Lemma authenticate_cached_valid_witness :
  let w := sample_world (Ok (mk_token "cached" (Some 2000) (Some "r"))) (Err "down") "" in
  authenticate w sample_azure = ([EvReadTokenFile], Ok "cached") /\
  forallb (fun ev => negb (is_network_call ev || is_token_write ev))
          (fst (authenticate w sample_azure)) = true.
Proof.
  intros w.
  apply (authenticate_cached_valid w sample_azure
           (mk_token "cached" (Some 2000) (Some "r")) 2000);
    [reflexivity | reflexivity | simpl; lia].
Defined.

Lemma fst_bind_emit {B} (ev : Event) (k : unit -> M B) :
  fst (bind (emit ev) k) = ev :: fst (k tt).
Proof. unfold bind, emit. simpl. now destruct (k tt). Qed.

Lemma interactive_flow_listens (w : World) (self : AzureService) :
  In EvListen (fst (interactive_flow w self)).
Proof.
  unfold interactive_flow. rewrite fst_bind_emit. right.
  rewrite fst_bind_emit. now left.
Qed.

(** The interactive flow is started exactly when the credential file
    could not be read, or holds an invalid credential with no refresh
    token. *)
Lemma authenticate_listens_iff (w : World) (self : AzureService) :
  In EvListen (fst (authenticate w self)) <->
  (exists e, w.(w_token_file) = Err e) \/
  (exists t, w.(w_token_file) = Ok t /\
             is_token_valid t w.(w_now_check) = false /\ t.(refresh_token) = None).
Proof.
  pose proof (interactive_flow_listens w self) as Hl.
  unfold authenticate, read_token_from_file.
  destruct (w_token_file w) as [t|e] eqn:Hf; simpl.
  - destruct (is_token_valid t (w_now_check w)) eqn:Hv; simpl.
    + split.
      * intros [H|[]]. discriminate.
      * intros [[e He]|[t' [Ht' [Hv' _]]]]; [discriminate|].
        injection Ht' as <-. congruence.
    + destruct (refresh_token t) as [rt|] eqn:Hr.
      * unfold bind, try_with, refresh_access_token, write_token_to_file; simpl.
        destruct (w_refresh w rt) as [t'|e']; simpl.
        -- destruct (w_write_token w t'); simpl.
           ++ split; [intros [H|[H|[H|[]]]]; discriminate|].
              intros [[e He]|[t'' [Ht'' [_ Hr']]]]; [discriminate|].
              injection Ht'' as <-. congruence.
           ++ split; [intros [H|[H|[H|[]]]]; discriminate|].
              intros [[e He]|[t'' [Ht'' [_ Hr']]]]; [discriminate|].
              injection Ht'' as <-. congruence.
        -- split; [intros [H|[H|[]]]; discriminate|].
           intros [[e He]|[t'' [Ht'' [_ Hr']]]]; [discriminate|].
           injection Ht'' as <-. congruence.
      * destruct (interactive_flow w self) as [ti ri]. simpl in *.
        split; [intros _; right; now exists t|intros _; now right].
  - destruct (interactive_flow w self) as [ti ri]. simpl in *.
    split; [intros _; left; now exists e|intros _; now right].
Qed.

(** C2: after a successful refresh, the credential written to the token
    file is the token endpoint's response as it is: its [expires_at] is
    the response's own, not recomputed from the refresh time and
    [expires_in] (unlike the interactive flow, line 141). *)
Theorem authenticate_refresh_persists_response (w : World) (self : AzureService)
    (t t' : TokenResponse) (rt : string) :
  w.(w_token_file) = Ok t ->
  is_token_valid t w.(w_now_check) = false ->
  t.(refresh_token) = Some rt ->
  w.(w_refresh) rt = Ok t' ->
  w.(w_write_token) t' = Ok tt ->
  authenticate w self =
    ([EvReadTokenFile; EvTokenRequest "refresh_token"; EvWriteTokenFile t'],
     Ok t'.(access_token)).
Proof.
  intros Hf Hv Hr Hrefresh Hw.
  unfold authenticate, read_token_from_file. rewrite Hf. simpl.
  rewrite Hv, Hr. unfold bind, try_with, refresh_access_token, write_token_to_file.
  simpl. rewrite Hrefresh. simpl. now rewrite Hw.
Qed.

(** At the failing input: the stored credential expired at 500, the clock
    reads 1000, the endpoint answers [expires_in = 3600] (and, as the
    token endpoint's JSON has no [expires_at], [expires_at = None]); the
    credential written has [expires_at = None], not [Some 4600]. *)
Lemma authenticate_refresh_persists_response_witness :
  let w := sample_world (Ok (mk_token "old" (Some 500) (Some "r")))
                        (Ok (mk_token "new" None (Some "r2"))) "" in
  authenticate w sample_azure =
    ([EvReadTokenFile; EvTokenRequest "refresh_token";
      EvWriteTokenFile (mk_token "new" None (Some "r2"))], Ok "new") /\
  (mk_token "new" None (Some "r2")).(expires_at) <> Some (1000 + 3600).
Proof.
  intros w. split.
  - apply (authenticate_refresh_persists_response w sample_azure
             (mk_token "old" (Some 500) (Some "r")) (mk_token "new" None (Some "r2")) "r");
      reflexivity.
  - discriminate.
Defined.

(* ------------------------------------------------------------------ *)
(** ** The delivery loop *)

Definition is_relocation (e : Event) : bool :=
  match e with EvCreateDir _ | EvMove _ _ => true | _ => false end.

Definition is_auth_effect (e : Event) : bool :=
  match e with
  | EvReadTokenFile | EvTokenRequest _ | EvWriteTokenFile _
  | EvShowAuthUrl _ | EvListen | EvAwaitCode => true
  | _ => false
  end.

(** C4: when the listing of the source directory yields no file,
    [send_files] succeeds after the listing alone: no credential read or
    write, no token request, no listener. *)
Theorem send_files_empty (w : World) (self : SendService) (entries : list DirEntry) :
  w.(w_read_dir) self.(config).(ebook_to_send_directory) = Ok entries ->
  collect_files entries = Ok [] ->
  send_files w self = ([EvListDir self.(config).(ebook_to_send_directory)], Ok tt) /\
  forallb (fun ev => negb (is_auth_effect ev || is_network_call ev))
          (fst (send_files w self)) = true.
Proof.
  intros Hd Hc.
  assert (Hs : send_files w self =
               ([EvListDir self.(config).(ebook_to_send_directory)], Ok tt)).
  { unfold send_files, list_file_in_directory, bind, emit, lift. simpl.
    rewrite Hd. simpl. now rewrite Hc. }
  rewrite Hs. split; reflexivity.
Qed.

Lemma send_files_empty_witness :
  let w := {| w_token_file := Err "not found"; w_now_check := 0; w_now_stamp := 0;
              w_refresh := fun _ => Err "unused"; w_exchange := fun _ => Err "unused";
              w_write_token := fun _ => Ok tt; w_code := Err tt;
              w_read_dir := fun _ => Ok [Ok ("to_send/sub", false)];
              w_open := fun _ => Ok tt; w_read_to_end := fun _ => Ok [];
              w_post_mail := fun _ _ => Err "unused";
              w_create_dir_all := fun _ => Ok tt; w_rename := fun _ _ => Ok tt;
              w_config := Ok sample_config |} in
  send_files w sample_service = ([EvListDir "to_send"], Ok tt) /\
  forallb (fun ev => negb (is_auth_effect ev || is_network_call ev))
          (fst (send_files w sample_service)) = true.
Proof.
  intros w. apply (send_files_empty w sample_service [Ok ("to_send/sub", false)]);
    reflexivity.
Defined.

Lemma send_file_no_relocation (w : World) (ks : KindleService) (tok p : string) :
  forallb (fun ev => negb (is_relocation ev)) (fst (send_file w ks tok p)) = true.
Proof.
  unfold send_file, bind, emit, lift, ret, fail. simpl.
  destruct (w_open w p); simpl; [|reflexivity].
  destruct (w_read_to_end w p); simpl; [|reflexivity].
  destruct (next_back (split_on "/"%char p)); simpl; [|reflexivity].
  destruct (w_post_mail w tok _) as [r|]; simpl; [|reflexivity].
  destruct (is_success (status r)); simpl; [reflexivity|].
  now destruct (resp_body r).
Qed.

Lemma send_loop_cons_send_err (w : World) (self : SendService) (tok k : string)
    (post : list string) (sc fc : nat) (tk : list Event) (e : KindleError) :
  send_file w self.(kindle_service) tok k = (tk, Err e) ->
  send_loop w self tok (k :: post) sc fc =
    ((tk ++ fst (send_loop w self tok post sc (S fc)))%list,
     snd (send_loop w self tok post sc (S fc))).
Proof.
  intros H. simpl. unfold handle. rewrite H.
  now destruct (send_loop w self tok post sc (S fc)).
Qed.

Lemma send_loop_app (w : World) (self : SendService) (tok : string) (l : list string) :
  forall pre sc fc, exists sp fp,
    snd (send_loop w self tok pre sc fc) = Ok (sp, fp) /\
    send_loop w self tok (pre ++ l) sc fc =
      ((fst (send_loop w self tok pre sc fc) ++ fst (send_loop w self tok l sp fp))%list,
       snd (send_loop w self tok l sp fp)).
Proof.
  induction pre as [|p pre IH]; intros sc fc.
  - exists sc, fc. split; [reflexivity|]. simpl.
    now destruct (send_loop w self tok l sc fc).
  - simpl. unfold handle.
    destruct (send_file w (kindle_service self) tok p) as [t1 [a|e]];
      [destruct (move_file w p (ebook_sent_directory (config self))) as [t2 [a'|e']]|];
      match goal with
      | |- context [send_loop w self tok (pre ++ l) ?s ?f] =>
          destruct (IH s f) as [sp [fp [H1 H2]]]; exists sp, fp; rewrite H2;
          destruct (send_loop w self tok pre s f) as [tp rp]; simpl in *;
          rewrite H1; split; [reflexivity|]; now rewrite ?app_assoc
      end.
Qed.

Lemma send_loop_counts (w : World) (self : SendService) (tok : string) :
  forall files sc fc, exists s f,
    snd (send_loop w self tok files sc fc) = Ok (s, f) /\
    (s + f = sc + fc + List.length files)%nat /\ (fc <= f)%nat.
Proof.
  induction files as [|p rest IH]; intros sc fc.
  - exists sc, fc. simpl. split; [reflexivity|lia].
  - simpl. unfold handle.
    destruct (send_file w (kindle_service self) tok p) as [t1 [a|e]];
      [destruct (move_file w p (ebook_sent_directory (config self))) as [t2 [a'|e']]|];
      match goal with
      | |- context [send_loop w self tok rest ?s ?f] =>
          destruct (IH s f) as [s' [f' [H1 [H2 H3]]]]; exists s', f';
          destruct (send_loop w self tok rest s f) as [tr rr]; simpl in *;
          split; [exact H1|lia]
      end.
Qed.

(** C5: when the send of file [k] fails, the loop records only
    [send_file]'s own events for [k] (no relocation), then runs on the
    remaining files [post] with the failure count incremented; the loop
    itself never fails and ends with at least one failure. *)
Theorem send_loop_continues_after_failure (w : World) (self : SendService)
    (tok k : string) (pre post : list string) (sc fc : nat)
    (tk : list Event) (e : KindleError) :
  send_file w self.(kindle_service) tok k = (tk, Err e) ->
  exists sp fp s f,
    snd (send_loop w self tok pre sc fc) = Ok (sp, fp) /\
    send_loop w self tok (pre ++ k :: post) sc fc =
      ((fst (send_loop w self tok pre sc fc) ++ tk
        ++ fst (send_loop w self tok post sp (S fp)))%list, Ok (s, f)) /\
    snd (send_loop w self tok post sp (S fp)) = Ok (s, f) /\
    (1 <= f)%nat /\
    forallb (fun ev => negb (is_relocation ev)) tk = true.
Proof.
  intros Hk.
  destruct (send_loop_app w self tok (k :: post) pre sc fc) as [sp [fp [H1 H2]]].
  destruct (send_loop_counts w self tok post sp (S fp)) as [s [f [H3 [_ H4]]]].
  exists sp, fp, s, f. split; [exact H1|]. split.
  - rewrite H2, (send_loop_cons_send_err w self tok k post sp fp tk e Hk). simpl.
    now rewrite H3.
  - split; [exact H3|]. split; [lia|].
    pose proof (send_file_no_relocation w self.(kindle_service) tok k) as Hn.
    now rewrite Hk in Hn.
Qed.

Lemma send_loop_continues_after_failure_witness :
  let w := sample_world (Ok (mk_token "cached" (Some 2000) None)) (Err "unused")
                        "book2.epub" in
  let k := "to_send/book2.epub" in
  exists sp fp s f,
    snd (send_loop w sample_service "cached" ["to_send/book1.epub"] 0 0) = Ok (sp, fp) /\
    send_loop w sample_service "cached" (["to_send/book1.epub"] ++ k :: ["to_send/book3.epub"]) 0 0 =
      ((fst (send_loop w sample_service "cached" ["to_send/book1.epub"] 0 0)
        ++ fst (send_file w sample_service.(kindle_service) "cached" k)
        ++ fst (send_loop w sample_service "cached" ["to_send/book3.epub"] sp (S fp)))%list,
       Ok (s, f)) /\
    snd (send_loop w sample_service "cached" ["to_send/book3.epub"] sp (S fp)) = Ok (s, f) /\
    (1 <= f)%nat /\
    forallb (fun ev => negb (is_relocation ev))
            (fst (send_file w sample_service.(kindle_service) "cached" k)) = true.
Proof.
  intros w k.
  apply (send_loop_continues_after_failure w sample_service "cached" k
           ["to_send/book1.epub"] ["to_send/book3.epub"] 0 0
           (fst (send_file w sample_service.(kindle_service) "cached" k))
           {| message := "Failed to send email: Request Entity Too Large" |}).
  vm_compute. reflexivity.
Defined.

(** C10: every file of the loop adds one to exactly one counter, so the
    two counters sum to the number of files; a failed relocation after a
    successful send and a failed send both continue with the same
    [failure_count + 1]. *)
Theorem send_loop_counts_total :
  (forall w self tok files, exists s f,
     snd (send_loop w self tok files 0 0) = Ok (s, f) /\ (s + f = List.length files)%nat) /\
  (forall w self tok p rest sc fc t1 t2 e,
     send_file w self.(kindle_service) tok p = (t1, Ok tt) ->
     move_file w p self.(config).(ebook_sent_directory) = (t2, Err e) ->
     send_loop w self tok (p :: rest) sc fc =
       ((t1 ++ t2 ++ fst (send_loop w self tok rest sc (S fc)))%list,
        snd (send_loop w self tok rest sc (S fc)))) /\
  (forall w self tok p rest sc fc t1 e,
     send_file w self.(kindle_service) tok p = (t1, Err e) ->
     send_loop w self tok (p :: rest) sc fc =
       ((t1 ++ fst (send_loop w self tok rest sc (S fc)))%list,
        snd (send_loop w self tok rest sc (S fc)))).
Proof.
  split; [|split].
  - intros w self tok files.
    destruct (send_loop_counts w self tok files 0 0) as [s [f [H1 [H2 _]]]].
    exists s, f. split; [exact H1|lia].
  - intros w self tok p rest sc fc t1 t2 e Hs Hm. simpl. unfold handle.
    rewrite Hs, Hm. destruct (send_loop w self tok rest sc (S fc)). simpl.
    now rewrite app_assoc.
  - intros w self tok p rest sc fc t1 e Hs.
    now apply (send_loop_cons_send_err w self tok p rest sc fc t1 e).
Qed.

(* ------------------------------------------------------------------ *)
(** ** Outcome of the run and exit status *)

Lemma send_files_after_loop (w : World) (self : SendService) (tl ta tloop : list Event)
    (files : list string) (tok : string) (s f : nat) :
  list_file_in_directory w self.(config).(ebook_to_send_directory) = (tl, Ok files) ->
  files <> [] ->
  authenticate w self.(azure_service) = (ta, Ok tok) ->
  send_loop w self tok files 0 0 = (tloop, Ok (s, f)) ->
  snd (send_files w self) =
    if (0 <? f)%nat
    then Err {| message := "Failed to process " ++ nat_to_string f ++ " files" |}
    else Ok tt.
Proof.
  intros Hl Hne Ha Hloop.
  unfold send_files, bind at 1. rewrite Hl.
  destruct files as [|p rest]; [congruence|]. cbv beta iota.
  unfold is_nil. unfold bind at 1. rewrite Ha. cbv beta iota.
  unfold bind at 1. rewrite Hloop. cbv beta iota.
  destruct (0 <? f)%nat; reflexivity.
Qed.

(** C6: once the loop has run (the listing gave files and authentication
    succeeded), [send_files] fails exactly when [failure_count > 0]; the
    exit status is 0 exactly when no file failed, and 1 when
    authentication fails. *)
Theorem send_files_error_iff_failures (w : World) (cfg : Config)
    (tl : list Event) (files : list string) :
  w.(w_config) = Ok cfg ->
  list_file_in_directory w cfg.(ebook_to_send_directory) = (tl, Ok files) ->
  files <> [] ->
  (forall ta e, authenticate w (send_service_of cfg).(azure_service) = (ta, Err e) ->
     exit_code w = 1) /\
  (forall ta tok tloop s f,
     authenticate w (send_service_of cfg).(azure_service) = (ta, Ok tok) ->
     send_loop w (send_service_of cfg) tok files 0 0 = (tloop, Ok (s, f)) ->
     ((exists e, snd (send_files w (send_service_of cfg)) = Err e) <-> (0 < f)%nat) /\
     (exit_code w = 0 <-> f = 0%nat)).
Proof.
  intros Hc Hl Hne.
  assert (Hl' : list_file_in_directory w
                  (send_service_of cfg).(config).(ebook_to_send_directory) = (tl, Ok files))
    by exact Hl.
  assert (He : snd (execute_send_command w) = snd (send_files w (send_service_of cfg))).
  { unfold execute_send_command, bind at 1. rewrite Hc. cbv beta iota.
    now destruct (send_files w (send_service_of cfg)). }
  split.
  - intros ta e Ha. unfold exit_code. rewrite He.
    unfold send_files, bind at 1. rewrite Hl'.
    destruct files as [|p rest]; [congruence|]. cbv beta iota.
    unfold is_nil. unfold bind at 1. rewrite Ha. reflexivity.
  - intros ta tok tloop s f Ha Hloop.
    pose proof (send_files_after_loop w (send_service_of cfg) tl ta tloop files tok s f
                  Hl Hne Ha Hloop) as Hs.
    unfold exit_code. rewrite He, Hs.
    destruct (0 <? f)%nat eqn:Hf.
    + apply Nat.ltb_lt in Hf. cbv beta iota. repeat split.
      * intros _. exact Hf.
      * intros _. eexists; reflexivity.
      * discriminate.
      * lia.
    + apply Nat.ltb_ge in Hf. cbv beta iota. repeat split.
      * intros [e' H]. discriminate.
      * lia.
      * intros _. lia.
Qed.

Lemma send_files_error_iff_failures_witness :
  let w := sample_world (Ok (mk_token "cached" (Some 2000) None)) (Err "unused")
                        "book2.epub" in
  (forall ta e, authenticate w (send_service_of sample_config).(azure_service) = (ta, Err e) ->
     exit_code w = 1) /\
  (forall ta tok tloop s f,
     authenticate w (send_service_of sample_config).(azure_service) = (ta, Ok tok) ->
     send_loop w (send_service_of sample_config) tok
               ["to_send/book1.epub"; "to_send/book2.epub"] 0 0 = (tloop, Ok (s, f)) ->
     ((exists e, snd (send_files w (send_service_of sample_config)) = Err e) <-> (0 < f)%nat) /\
     (exit_code w = 0 <-> f = 0%nat)).
Proof.
  intros w.
  apply (send_files_error_iff_failures w sample_config [EvListDir "to_send"]
           ["to_send/book1.epub"; "to_send/book2.epub"]);
    [reflexivity | reflexivity | discriminate].
Defined.

(** The spec's second example: the gateway rejects [book2.epub] with
    status 413; [book1.epub] is sent and moved, the run fails and the exit
    status is non-zero. *)
Example example_413 :
  let w := sample_world (Ok (mk_token "cached" (Some 2000) None)) (Err "unused")
                        "book2.epub" in
  snd (send_loop w sample_service "cached" ["to_send/book1.epub"; "to_send/book2.epub"] 0 0)
    = Ok (1%nat, 1%nat) /\
  In (EvMove "to_send/book1.epub" "sent/book1.epub") (fst (execute_send_command w)) /\
  exit_code w = 1.
Proof. vm_compute. intuition. Qed.

(* ------------------------------------------------------------------ *)
(** ** Base64 round trip *)

Lemma b64_alphabet_index (k : nat) :
  (k < 64)%nat ->
  b64_index (nth k b64_alphabet "A"%char) = Some (Z.of_nat k) /\
  Ascii.eqb (nth k b64_alphabet "A"%char) pad = false.
Proof.
  intros Hk.
  do 64 (destruct k as [|k]; [split; reflexivity|]).
  lia.
Qed.

Lemma b64_char_index (s : Z) :
  0 <= s < 64 -> b64_index (b64_char s) = Some s /\ Ascii.eqb (b64_char s) pad = false.
Proof.
  intros Hs. unfold b64_char.
  destruct (b64_alphabet_index (Z.to_nat s)) as [H1 H2]; [lia|].
  rewrite Z2Nat.id in H1 by lia. now split.
Qed.

Lemma byte_val_bounds (b : byte) : 0 <= byte_val b < 256.
Proof.
  unfold byte_val. pose proof (Byte.to_N_bounded b). lia.
Qed.

Lemma to_byte_val (b : byte) : to_byte (byte_val b) = b.
Proof.
  unfold to_byte, byte_val. now rewrite N2Z.id, Byte.of_to_N.
Qed.

Lemma land_63 (x : Z) : Z.land x 63 = x mod 64.
Proof. change 63 with (Z.ones 6). now rewrite Z.land_ones by lia. Qed.

Lemma sextets_divmod (n : Z) :
  0 <= n ->
  sextets n = [(n / 2 ^ 18) mod 64; (n / 2 ^ 12) mod 64; (n / 2 ^ 6) mod 64; n mod 64].
Proof.
  intros Hn. unfold sextets.
  rewrite !land_63, !Z.shiftr_div_pow2 by lia. reflexivity.
Qed.

(** The four 6-bit indices of a 24-bit group recombine into it. *)
Lemma sextets_recombine (n : Z) :
  0 <= n < 2 ^ 24 ->
  (n / 2 ^ 18) mod 64 * 2 ^ 18 + (n / 2 ^ 12) mod 64 * 2 ^ 12
  + (n / 2 ^ 6) mod 64 * 2 ^ 6 + n mod 64 = n.
Proof.
  intros Hn.
  assert (E12 : n / 2 ^ 12 = n / 64 / 64) by (rewrite Z.div_div by lia; reflexivity).
  assert (E18 : n / 2 ^ 18 = n / 64 / 64 / 64) by (rewrite !Z.div_div by lia; reflexivity).
  change (2 ^ 6) with 64. rewrite E12, E18.
  pose proof (Z.div_mod n 64 ltac:(lia)) as D1.
  pose proof (Z.div_mod (n / 64) 64 ltac:(lia)) as D2.
  pose proof (Z.div_mod (n / 64 / 64) 64 ltac:(lia)) as D3.
  assert (B : n / 64 / 64 / 64 < 64).
  { rewrite !Z.div_div by lia. apply Z.div_lt_upper_bound; lia. }
  assert (P : 0 <= n / 64 / 64 / 64) by (apply Z.div_pos; [apply Z.div_pos; [apply Z.div_pos|]|]; lia).
  rewrite (Z.mod_small (n / 64 / 64 / 64) 64) by lia.
  change (2 ^ 18) with (64 * 64 * 64). change (2 ^ 12) with (64 * 64).
  lia.
Qed.

Lemma group_value (b0 b1 b2 : byte) :
  group b0 b1 b2 = byte_val b0 * 2 ^ 16 + byte_val b1 * 2 ^ 8 + byte_val b2.
Proof. unfold group. rewrite !Z.shiftl_mul_pow2 by lia. reflexivity. Qed.

(** Encoding a group and decoding its indices gives the group's bytes. *)
Lemma quad_bytes_group (b0 b1 b2 : byte) :
  let n := group b0 b1 b2 in
  quad_bytes ((n / 2 ^ 18) mod 64) ((n / 2 ^ 12) mod 64) ((n / 2 ^ 6) mod 64) (n mod 64)
  = [b0; b1; b2].
Proof.
  intros n.
  pose proof (byte_val_bounds b0). pose proof (byte_val_bounds b1).
  pose proof (byte_val_bounds b2).
  assert (Hn : 0 <= n < 2 ^ 24) by (unfold n; rewrite group_value; simpl; lia).
  unfold quad_bytes. rewrite (sextets_recombine n Hn).
  unfold n. rewrite group_value.
  set (v0 := byte_val b0) in *. set (v1 := byte_val b1) in *. set (v2 := byte_val b2) in *.
  change (2 ^ 16) with 65536. change (2 ^ 8) with 256.
  replace ((v0 * 65536 + v1 * 256 + v2) / 65536) with v0
    by (apply (Z.div_unique _ _ _ (v1 * 256 + v2)); [left|]; lia).
  replace ((v0 * 65536 + v1 * 256 + v2) / 256) with (v0 * 256 + v1)
    by (apply (Z.div_unique _ _ _ v2); [left|]; lia).
  replace ((v0 * 256 + v1) mod 256) with v1
    by (apply (Z.mod_unique _ _ v0); [left|]; lia).
  replace ((v0 * 65536 + v1 * 256 + v2) mod 256) with v2
    by (apply (Z.mod_unique _ _ (v0 * 256 + v1)); [left|]; lia).
  unfold v0, v1, v2.
  now rewrite !to_byte_val.
Qed.

Lemma group_nonneg (b0 b1 b2 : byte) : 0 <= group b0 b1 b2.
Proof.
  rewrite group_value. pose proof (byte_val_bounds b0). pose proof (byte_val_bounds b1).
  pose proof (byte_val_bounds b2). lia.
Qed.

Lemma sextet_bound (x : Z) : 0 <= x mod 64 < 64.
Proof. apply Z.mod_pos_bound. lia. Qed.

Lemma group_last_zero (b0 b1 : byte) : group b0 b1 x00 mod 64 = 0.
Proof.
  rewrite group_value. change (byte_val x00) with 0.
  change (2 ^ 16) with 65536. change (2 ^ 8) with 256.
  symmetry. apply (Z.mod_unique _ _ (byte_val b0 * 1024 + byte_val b1 * 4)); [left | ]; lia.
Qed.

Lemma group_third_zero (b0 : byte) : (group b0 x00 x00 / 2 ^ 6) mod 64 = 0.
Proof.
  rewrite group_value. change (byte_val x00) with 0.
  change (2 ^ 16) with 65536. change (2 ^ 8) with 256. change (2 ^ 6) with 64.
  replace ((byte_val b0 * 65536 + 0 * 256 + 0) / 64) with (byte_val b0 * 1024)
    by (apply (Z.div_unique _ _ _ 0); [left|]; lia).
  symmetry. apply (Z.mod_unique _ _ (byte_val b0 * 16)); [left|]; lia.
Qed.

Ltac sextet_facts n :=
  let s0 := fresh "s0" in let s1 := fresh "s1" in
  let s2 := fresh "s2" in let s3 := fresh "s3" in
  set (s0 := (n / 2 ^ 18) mod 64) in *; set (s1 := (n / 2 ^ 12) mod 64) in *;
  set (s2 := (n / 2 ^ 6) mod 64) in *; set (s3 := n mod 64) in *;
  destruct (b64_char_index s0 (sextet_bound _)) as [? ?];
  destruct (b64_char_index s1 (sextet_bound _)) as [? ?];
  destruct (b64_char_index s2 (sextet_bound _)) as [? ?];
  destruct (b64_char_index s3 (sextet_bound _)) as [? ?].

Lemma decode_encode_chars : forall bs, decode_chars (encode_chars bs) = Some bs.
Proof.
  fix IH 1. intros [|b0 [|b1 [|b2 rest]]].
  - reflexivity.
  - cbn [encode_chars]. pose proof (quad_bytes_group b0 x00 x00) as Q. cbv zeta in Q.
    pose proof (group_last_zero b0 x00) as Z3. pose proof (group_third_zero b0) as Z2.
    rewrite (sextets_divmod _ (group_nonneg b0 x00 x00)).
    set (n := group b0 x00 x00) in *. sextet_facts n.
    cbn [map firstn app decode_chars]. rewrite H, H1. cbn -[quad_bytes].
    assert (E : quad_bytes s0 s1 0 0 = quad_bytes s0 s1 s2 s3) by now rewrite Z2, Z3.
    now rewrite E, Q.
  - cbn [encode_chars]. pose proof (quad_bytes_group b0 b1 x00) as Q. cbv zeta in Q.
    pose proof (group_last_zero b0 b1) as Z3.
    rewrite (sextets_divmod _ (group_nonneg b0 b1 x00)).
    set (n := group b0 b1 x00) in *. sextet_facts n.
    cbn [map firstn app decode_chars]. rewrite H, H1, H3. cbn [is_nil andb].
    rewrite H4. cbn -[quad_bytes].
    assert (E : quad_bytes s0 s1 s2 0 = quad_bytes s0 s1 s2 s3) by now rewrite Z3.
    now rewrite E, Q.
  - cbn [encode_chars]. pose proof (quad_bytes_group b0 b1 b2) as Q. cbv zeta in Q.
    rewrite (sextets_divmod _ (group_nonneg b0 b1 b2)).
    set (n := group b0 b1 b2) in *. sextet_facts n.
    cbn [map app decode_chars]. rewrite H, H1, H3, H5, H4, H6.
    rewrite (IH rest). rewrite !andb_false_r. now rewrite Q.
Qed.

(** What [send_file] puts on the wire: a mail is posted only after the
    file was opened and read, and its payload is built from the bytes
    read and the last ['/']-separated piece of the path. *)
Lemma send_file_sendmail (w : World) (ks : KindleService) (tok p t : string) (em : Email) :
  In (EvSendMail t em) (fst (send_file w ks tok p)) ->
  exists bs n,
    w.(w_open) p = Ok tt /\ w.(w_read_to_end) p = Ok bs /\
    next_back (split_on "/"%char p) = Some n /\
    t = tok /\ em = build_email ks n (base64_encode bs).
Proof.
  unfold send_file, bind, emit, lift, ret, fail. simpl.
  destruct (w_open w p) as [[]|e]; simpl; [|intros [H|[]]; discriminate].
  destruct (w_read_to_end w p) as [bs|e]; simpl;
    [|intros [H|[]]; discriminate].
  destruct (next_back (split_on "/"%char p)) as [n|] eqn:Hn; simpl;
    [|intros [H|[]]; discriminate].
  destruct (w_post_mail w tok _) as [r|e]; simpl;
    [destruct (is_success (status r)); simpl; [|destruct (resp_body r); simpl]|];
    intros [H|[H|[]]]; try discriminate;
    injection H as E1 E2; subst; now exists bs, n.
Qed.

(** C9: decoding the base64 text of the attachment gives back the bytes
    read from the file; in particular decoding inverts the standard
    encoding on every byte sequence. *)
Theorem attachment_base64_roundtrip :
  (forall bs : list byte, base64_decode (base64_encode bs) = Some bs) /\
  (forall (w : World) (ks : KindleService) (tok p : string) (em : Email) (bs : list byte),
     w.(w_read_to_end) p = Ok bs ->
     In (EvSendMail tok em) (fst (send_file w ks tok p)) ->
     map (fun a => base64_decode a.(content_bytes)) em.(msg).(attachments) = [Some bs]).
Proof.
  assert (R : forall bs, base64_decode (base64_encode bs) = Some bs).
  { intros bs. unfold base64_decode, base64_encode.
    rewrite list_ascii_of_string_of_list_ascii. apply decode_encode_chars. }
  split; [exact R|].
  intros w ks tok p em bs Hr Hin.
  destruct (send_file_sendmail w ks tok p tok em Hin) as [bs' [n [_ [Hr' [_ [_ ->]]]]]].
  rewrite Hr in Hr'. injection Hr' as <-. simpl. now rewrite R.
Qed.

(* ------------------------------------------------------------------ *)
(** ** The attachment name *)

(** The last ['/']-separated piece of a path. *)
Definition final_segment (p : string) : string :=
  match next_back (split_on "/"%char p) with Some s => s | None => "" end.

(** The file system the program runs on, for the paths [send_file] gets:
    on a POSIX system a path whose last ['/']-separated piece is empty,
    [.] or [..] names a directory (or nothing), so opening it fails, or
    reading it does ([EISDIR]). *)
Definition fs_posix (w : World) : Prop :=
  forall p, In (final_segment p) [""; "."; ".."] ->
    (exists e, w.(w_open) p = Err e) \/ (exists e, w.(w_read_to_end) p = Err e).

Lemma split_on_not_nil (c : ascii) (s : string) : split_on c s <> [].
Proof.
  induction s as [|x s IH]; simpl; [discriminate|].
  destruct (Ascii.eqb x c); [discriminate|].
  destruct (split_on c s); [contradiction|discriminate].
Qed.

Lemma next_back_not_nil {A} (l : list A) : l <> [] -> exists x, next_back l = Some x.
Proof.
  induction l as [|a l IH]; intros H; [contradiction|].
  destruct l as [|b l]; [now exists a|].
  apply IH. discriminate.
Qed.

(** The filename step of [send_file] cannot fail. *)
Lemma split_on_next_back (p : string) :
  next_back (split_on "/"%char p) = Some (final_segment p).
Proof.
  unfold final_segment.
  destruct (next_back_not_nil _ (split_on_not_nil "/"%char p)) as [x Hx].
  now rewrite Hx.
Qed.

Lemma next_back_filter {A} (f : A -> bool) (l : list A) (x : A) :
  next_back l = Some x -> f x = true -> next_back (filter f l) = Some x.
Proof.
  induction l as [|a l IH]; intros H Hf; [discriminate|].
  destruct l as [|b l].
  - simpl in H. injection H as ->. simpl. now rewrite Hf.
  - change (next_back (b :: l) = Some x) in H.
    specialize (IH H Hf).
    change (next_back (if f a then a :: filter f (b :: l) else filter f (b :: l)) = Some x).
    destruct (f a); [|exact IH].
    destruct (filter f (b :: l)); [discriminate IH|exact IH].
Qed.

Lemma path_file_name_final (p : string) :
  ~ In (final_segment p) [""; "."; ".."] -> path_file_name p = Some (final_segment p).
Proof.
  intros Hn. unfold path_file_name.
  rewrite (next_back_filter _ _ (final_segment p) (split_on_next_back p)).
  - destruct (String.eqb (final_segment p) "..") eqn:E; [|reflexivity].
    apply String.eqb_eq in E. exfalso. apply Hn. rewrite E. simpl. tauto.
  - destruct (String.eqb (final_segment p) "") eqn:E1;
      [apply String.eqb_eq in E1; exfalso; apply Hn; rewrite E1; simpl; tauto|].
    destruct (String.eqb (final_segment p) ".") eqn:E2;
      [apply String.eqb_eq in E2; exfalso; apply Hn; rewrite E2; simpl; tauto|].
    reflexivity.
Qed.

Lemma path_file_name_none (p : string) :
  path_file_name p = None -> In (final_segment p) [""; "."; ".."].
Proof.
  intros H.
  destruct (in_dec string_dec (final_segment p) [""; "."; ".."]) as [Hi|Hn]; [exact Hi|].
  rewrite (path_file_name_final p Hn) in H. discriminate.
Qed.

(** C8: on a POSIX file system, a path with no file name ([Path::file_name]
    is [None]) makes [send_file] fail after the read attempt alone, before
    any request; and whenever a mail is posted, its single attachment is
    named after the path's file name. *)
Theorem send_file_attachment_name (w : World) (ks : KindleService) (tok p : string) :
  fs_posix w ->
  (path_file_name p = None -> exists e, send_file w ks tok p = ([EvReadFile p], Err e)) /\
  (forall em, In (EvSendMail tok em) (fst (send_file w ks tok p)) ->
     exists n, path_file_name p = Some n /\ map name em.(msg).(attachments) = [n]).
Proof.
  intros Hfs. split.
  - intros Hnone. destruct (Hfs p (path_file_name_none p Hnone)) as [[e He]|[e He]];
      unfold send_file, bind, emit, lift; simpl.
    + rewrite He. simpl. now eexists.
    + destruct (w_open w p) as [[]|e']; simpl; [rewrite He; simpl|]; now eexists.
  - intros em Hin.
    destruct (send_file_sendmail w ks tok p tok em Hin) as [bs [n [Ho [Hr [Hn [_ ->]]]]]].
    assert (Hseg : ~ In (final_segment p) [""; "."; ".."]).
    { intros Hi. destruct (Hfs p Hi) as [[e He]|[e He]]; congruence. }
    rewrite split_on_next_back in Hn. injection Hn as <-.
    exists (final_segment p). split; [now apply path_file_name_final|reflexivity].
Qed.

(** A world whose [open] fails on the paths a POSIX system cannot open as
    a regular file. *)
Definition posix_world : World :=
  {| w_token_file := Err "not found"; w_now_check := 0; w_now_stamp := 0;
     w_refresh := fun _ => Err "unused"; w_exchange := fun _ => Err "unused";
     w_write_token := fun _ => Ok tt; w_code := Err tt;
     w_read_dir := fun _ => Ok [];
     w_open := fun p =>
       if existsb (String.eqb (final_segment p)) [""; "."; ".."]
       then Err "Is a directory (os error 21)" else Ok tt;
     w_read_to_end := fun _ => Ok [x01; x02; x03];
     w_post_mail := fun _ _ => Ok {| status := 202; resp_body := Ok "" |};
     w_create_dir_all := fun _ => Ok tt; w_rename := fun _ _ => Ok tt;
     w_config := Ok sample_config |}.

Lemma posix_world_posix : fs_posix posix_world.
Proof.
  intros p Hi. left.
  assert (E : existsb (String.eqb (final_segment p)) [""; "."; ".."] = true).
  { apply existsb_exists. exists (final_segment p).
    split; [exact Hi|apply String.eqb_refl]. }
  unfold posix_world, w_open. rewrite E. now eexists.
Qed.

Lemma send_file_attachment_name_witness :
  (path_file_name "to_send/.." = None ->
   exists e, send_file posix_world sample_service.(kindle_service) "tok" "to_send/.."
             = ([EvReadFile "to_send/.."], Err e)) /\
  (forall em, In (EvSendMail "tok" em)
                 (fst (send_file posix_world sample_service.(kindle_service) "tok"
                                 "to_send/book1.epub")) ->
     exists n, path_file_name "to_send/book1.epub" = Some n /\
               map name em.(msg).(attachments) = [n]).
Proof.
  split.
  - apply (send_file_attachment_name posix_world sample_service.(kindle_service)
             "tok" "to_send/.." posix_world_posix).
  - apply (send_file_attachment_name posix_world sample_service.(kindle_service)
             "tok" "to_send/book1.epub" posix_world_posix).
Defined.

(** Two concrete runs of [send_file]: the path [to_send/..] fails on the
    read; [to_send/book1.epub] posts a mail whose attachment is
    [book1.epub]. *)
Example send_file_examples :
  fst (send_file posix_world sample_service.(kindle_service) "tok" "to_send/..")
    = [EvReadFile "to_send/.."] /\
  exists em,
    In (EvSendMail "tok" em)
       (fst (send_file posix_world sample_service.(kindle_service) "tok"
                       "to_send/book1.epub")) /\
    map name em.(msg).(attachments) = ["book1.epub"].
Proof.
  split; [reflexivity|]. eexists. split; [simpl; right; left; reflexivity|reflexivity].
Qed.

(* ================================================================== *)
(** * Further properties of the code *)

(** ** The interactive flow, case by case *)

(** The credential stored by the interactive flow: the exchange response
    with [expires_at] stamped as [now + expires_in] (line 141). *)
Definition stamped (now : Z) (t : TokenResponse) : TokenResponse :=
  {| access_token := t.(access_token); refresh_token := t.(refresh_token);
     id_token := t.(id_token); expires_in := t.(expires_in);
     token_type := t.(token_type); expires_at := Some (now + t.(expires_in)) |}.

Definition interactive_prefix (self : AzureService) : list Event :=
  [EvShowAuthUrl (auth_url self); EvListen; EvAwaitCode].

Lemma interactive_flow_eq (w : World) (self : AzureService) :
  interactive_flow w self =
  match w.(w_code) with
  | Err _ => (interactive_prefix self, Err {| message := "Failed to receive auth code" |})
  | Ok code =>
      match w.(w_exchange) code with
      | Err e => ((interactive_prefix self ++ [EvTokenRequest "authorization_code"])%list,
                  Err (err_with "Error exchanging code for token: " e))
      | Ok t =>
          let ts := stamped w.(w_now_stamp) t in
          ((interactive_prefix self ++
            [EvTokenRequest "authorization_code"; EvWriteTokenFile ts])%list,
           match w.(w_write_token) ts with
           | Err e => Err (err_with "Error writing token to file: " e)
           | Ok _ => Ok t.(access_token)
           end)
      end
  end.
Proof.
  unfold interactive_flow, bind, emit, lift, try_with, ret,
    exchange_code_for_token, write_token_to_file.
  destruct (w_code w) as [code|[]]; simpl; [|reflexivity].
  destruct (w_exchange w code) as [t|e]; simpl; [|reflexivity].
  unfold stamped. now destruct (w_write_token w _).
Qed.

Definition count (f : Event -> bool) (t : list Event) : nat := List.length (filter f t).

Definition is_token_request (e : Event) : bool :=
  match e with EvTokenRequest _ => true | _ => false end.

(** [authenticate] case by case. *)
Lemma authenticate_eq (w : World) (self : AzureService) :
  authenticate w self =
  match w.(w_token_file) with
  | Ok t =>
      if is_token_valid t w.(w_now_check) then ([EvReadTokenFile], Ok t.(access_token))
      else match t.(refresh_token) with
           | Some rt =>
               match w.(w_refresh) rt with
               | Err e => ([EvReadTokenFile; EvTokenRequest "refresh_token"],
                           Err (err_with "Error refreshing token: " e))
               | Ok t' => ([EvReadTokenFile; EvTokenRequest "refresh_token"; EvWriteTokenFile t'],
                           match w.(w_write_token) t' with
                           | Err e => Err (err_with "Error writing token to file: " e)
                           | Ok _ => Ok t'.(access_token)
                           end)
               end
           | None => let (ti, ri) := interactive_flow w self in (EvReadTokenFile :: ti, ri)
           end
  | Err _ => let (ti, ri) := interactive_flow w self in (EvReadTokenFile :: ti, ri)
  end.
Proof.
  unfold authenticate, read_token_from_file.
  destruct (w_token_file w) as [t|e]; simpl; [|now destruct (interactive_flow w self)].
  destruct (is_token_valid t (w_now_check w)); [reflexivity|].
  destruct (refresh_token t) as [rt|]; [|now destruct (interactive_flow w self)].
  unfold bind, try_with, refresh_access_token, write_token_to_file, ret. simpl.
  destruct (w_refresh w rt) as [t'|e]; simpl; [|reflexivity].
  now destruct (w_write_token w t').
Qed.

(** [authenticate] makes at most one request to the token endpoint,
    writes the credential file at most once and starts at most one
    listener. *)
Theorem authenticate_at_most_once (w : World) (self : AzureService) :
  (count is_token_request (fst (authenticate w self)) <= 1)%nat /\
  (count is_token_write (fst (authenticate w self)) <= 1)%nat /\
  (count is_listener_start (fst (authenticate w self)) <= 1)%nat.
Proof.
  rewrite authenticate_eq.
  destruct (w_token_file w) as [t|e].
  - destruct (is_token_valid t (w_now_check w)); [cbn; repeat split; lia|].
    destruct (refresh_token t) as [rt|].
    + destruct (w_refresh w rt); cbn; repeat split; lia.
    + rewrite interactive_flow_eq.
      destruct (w_code w) as [code|]; [destruct (w_exchange w code)|];
        cbn; repeat split; lia.
  - rewrite interactive_flow_eq.
    destruct (w_code w) as [code|]; [destruct (w_exchange w code)|];
      cbn; repeat split; lia.
Qed.

(** C1: an expired stored credential that carries a refresh token gets
    exactly one token request, the refresh grant, and never reaches the
    interactive flow; when that refresh fails, [authenticate] fails with
    "Error refreshing token" instead of falling through to the
    authorization-code flow (the [?] at line 86), whereas an unreadable
    credential file does fall through (line 77). *)
Theorem authenticate_refresh_failure_no_interactive (w : World) (self : AzureService)
    (t : TokenResponse) (rt : string) :
  w.(w_token_file) = Ok t ->
  is_token_valid t w.(w_now_check) = false ->
  t.(refresh_token) = Some rt ->
  ~ In EvListen (fst (authenticate w self)) /\
  count is_token_request (fst (authenticate w self)) = 1%nat /\
  In (EvTokenRequest "refresh_token") (fst (authenticate w self)) /\
  (forall e, w.(w_refresh) rt = Err e ->
     authenticate w self =
       ([EvReadTokenFile; EvTokenRequest "refresh_token"],
        Err (err_with "Error refreshing token: " e))).
Proof.
  intros Hf Hv Hr. rewrite authenticate_eq, Hf, Hv, Hr.
  destruct (w_refresh w rt) as [t'|e'] eqn:Hrf.
  - split; [intros [H|[H|[H|[]]]]; discriminate|].
    split; [reflexivity|]. split; [right; now left|].
    intros e He. discriminate.
  - split; [intros [H|[H|[]]]; discriminate|].
    split; [reflexivity|]. split; [right; now left|].
    intros e He. injection He as <-. reflexivity.
Qed.

(** At the failing input: the stored credential expired at 500, the clock
    reads 1000, and the token endpoint rejects the refresh token
    ([invalid_grant]); no listener is started and the run fails. *)
Lemma authenticate_refresh_failure_no_interactive_witness :
  let w := sample_world (Ok (mk_token "old" (Some 500) (Some "r"))) (Err "invalid_grant") "" in
  ~ In EvListen (fst (authenticate w sample_azure)) /\
  count is_token_request (fst (authenticate w sample_azure)) = 1%nat /\
  In (EvTokenRequest "refresh_token") (fst (authenticate w sample_azure)) /\
  (forall e, w.(w_refresh) "r" = Err e ->
     authenticate w sample_azure =
       ([EvReadTokenFile; EvTokenRequest "refresh_token"],
        Err (err_with "Error refreshing token: " e))).
Proof.
  intros w.
  apply (authenticate_refresh_failure_no_interactive w sample_azure
           (mk_token "old" (Some 500) (Some "r")) "r"); reflexivity.
Defined.


(** The credential file is only ever written with a token endpoint's
    successful response: the refresh response as it is, or the exchange
    response stamped with its expiry. *)
Theorem authenticate_writes_only_responses (w : World) (self : AzureService) (t : TokenResponse) :
  In (EvWriteTokenFile t) (fst (authenticate w self)) ->
  (exists t0 rt, w.(w_token_file) = Ok t0 /\ t0.(refresh_token) = Some rt /\
                 w.(w_refresh) rt = Ok t) \/
  (exists code t0, w.(w_code) = Ok code /\ w.(w_exchange) code = Ok t0 /\
                   t = stamped w.(w_now_stamp) t0).
Proof.
  assert (HI : In (EvWriteTokenFile t) (fst (interactive_flow w self)) ->
               exists code t0, w.(w_code) = Ok code /\ w.(w_exchange) code = Ok t0 /\
                               t = stamped w.(w_now_stamp) t0).
  { rewrite interactive_flow_eq.
    destruct (w_code w) as [code|]; [destruct (w_exchange w code) as [t0|] eqn:He|];
      cbn; intros H; repeat destruct H as [H|H]; try discriminate; try contradiction.
    injection H as <-. now exists code, t0. }
  rewrite authenticate_eq.
  destruct (w_token_file w) as [t0|e] eqn:Hf.
  - destruct (is_token_valid t0 (w_now_check w)).
    + cbn. intros [H|[]]. discriminate.
    + destruct (refresh_token t0) as [rt|] eqn:Hr.
      * destruct (w_refresh w rt) as [t'|] eqn:Hrt; cbn;
          intros H; repeat destruct H as [H|H]; try discriminate; try contradiction.
        injection H as <-. left. now exists t0, rt.
      * destruct (interactive_flow w self) as [ti ri] eqn:Hi. cbn.
        intros [H|H]; [discriminate|]. right. apply HI. exact H.
  - destruct (interactive_flow w self) as [ti ri] eqn:Hi. cbn.
    intros [H|H]; [discriminate|]. right. apply HI. exact H.
Qed.

Lemma authenticate_writes_only_responses_witness :
  let w := sample_world (Err "File not found") (Err "unused") "" in
  let t := stamped 1000 (mk_token "interactive" None (Some "r1")) in
  In (EvWriteTokenFile t) (fst (authenticate w sample_azure)) /\
  ((exists t0 rt, w.(w_token_file) = Ok t0 /\ t0.(refresh_token) = Some rt /\
                  w.(w_refresh) rt = Ok t) \/
   (exists code t0, w.(w_code) = Ok code /\ w.(w_exchange) code = Ok t0 /\
                    t = stamped w.(w_now_stamp) t0)).
Proof.
  intros w t.
  assert (H : In (EvWriteTokenFile t) (fst (authenticate w sample_azure))).
  { vm_compute. repeat (first [left; reflexivity | right]). }
  split; [exact H|].
  exact (authenticate_writes_only_responses w sample_azure t H).
Defined.

(** A successful interactive login stores the exchanged credential
    stamped with [now + expires_in] and returns its access token; a later
    run that reads that credential before its expiry returns the same
    token from the cache, with no network call. *)
Theorem interactive_login_reused (w : World) (self : AzureService) (code : string)
    (t : TokenResponse) :
  w.(w_code) = Ok code ->
  w.(w_exchange) code = Ok t ->
  w.(w_write_token) (stamped w.(w_now_stamp) t) = Ok tt ->
  interactive_flow w self =
    ((interactive_prefix self ++
      [EvTokenRequest "authorization_code"; EvWriteTokenFile (stamped w.(w_now_stamp) t)])%list,
     Ok t.(access_token)) /\
  (forall (w' : World) (self' : AzureService),
     w'.(w_token_file) = Ok (stamped w.(w_now_stamp) t) ->
     w'.(w_now_check) < w.(w_now_stamp) + t.(expires_in) ->
     authenticate w' self' = ([EvReadTokenFile], Ok t.(access_token))).
Proof.
  intros Hc He Hw. split.
  - rewrite interactive_flow_eq, Hc, He. cbv zeta. now rewrite Hw.
  - intros w' self' Hf Hlt. rewrite authenticate_eq, Hf.
    unfold is_token_valid at 1. cbn [stamped expires_at].
    apply Z.ltb_lt in Hlt. now rewrite Hlt.
Qed.

Lemma interactive_login_reused_witness :
  let w := sample_world (Err "File not found") (Err "unused") "" in
  interactive_flow w sample_azure =
    ((interactive_prefix sample_azure ++
      [EvTokenRequest "authorization_code";
       EvWriteTokenFile (stamped 1000 (mk_token "interactive" None (Some "r1")))])%list,
     Ok "interactive") /\
  (forall (w' : World) (self' : AzureService),
     w'.(w_token_file) = Ok (stamped 1000 (mk_token "interactive" None (Some "r1"))) ->
     w'.(w_now_check) < 1000 + 3600 ->
     authenticate w' self' = ([EvReadTokenFile], Ok "interactive")).
Proof.
  intros w.
  apply (interactive_login_reused w sample_azure "the-code"
           (mk_token "interactive" None (Some "r1"))); reflexivity.
Defined.

(* ------------------------------------------------------------------ *)
(** ** The [/callback] route (lines 108-122) *)

(** [warp::query::<HashMap<String, String>>()]: the pairs of the query
    string inserted in order into a [HashMap], a repeated key keeping its
    last value. *)
Definition query_get (query : list (string * string)) (k : string) : option string :=
  fold_left (fun acc kv => if String.eqb (fst kv) k then Some (snd kv) else acc) query None.

Definition callback_reply : string := "You can close this tab and return to the CLI.".

(** One request: [tx] is the shared [Mutex<Option<Sender>>] ([Some tt]
    while the sender has not been taken).  Returns the new slot, the code
    sent on the channel (if any) and the HTML reply. *)
Definition callback_route (tx : option unit) (query : list (string * string))
  : option unit * option string * string :=
  match query_get query "code" with
  | Some code =>
      match tx with
      | Some _ => (None, Some code, callback_reply)     (* take(); tx.send(code) *)
      | None => (None, None, callback_reply)
      end
  | None => (tx, None, callback_reply)
  end.

(** A sequence of requests served by the listener: the codes sent on the
    channel and the replies, in order. *)
Fixpoint serve_callbacks (tx : option unit) (requests : list (list (string * string)))
  : list string * list string :=
  match requests with
  | [] => ([], [])
  | q :: rest =>
      match callback_route tx q with
      | (tx', sent, reply) =>
          let (codes, replies) := serve_callbacks tx' rest in
          (match sent with Some c => c :: codes | None => codes end, reply :: replies)
      end
  end.

(** The code of the first request that carries one. *)
Fixpoint first_code (requests : list (list (string * string))) : option string :=
  match requests with
  | [] => None
  | q :: rest => match query_get q "code" with Some c => Some c | None => first_code rest end
  end.

Lemma serve_callbacks_taken (requests : list (list (string * string))) :
  fst (serve_callbacks None requests) = [].
Proof.
  induction requests as [|q rest IH]; [reflexivity|].
  simpl. unfold callback_route.
  destruct (query_get q "code");
    destruct (serve_callbacks None rest) as [codes replies]; simpl in *; exact IH.
Qed.

(** However many requests reach the route, at most one code is sent on
    the channel: the code of the first request carrying a [code]
    parameter; every request gets the same confirmation page. *)
Theorem callback_delivers_first_code_once (requests : list (list (string * string))) :
  fst (serve_callbacks (Some tt) requests) =
    match first_code requests with Some c => [c] | None => [] end /\
  snd (serve_callbacks (Some tt) requests) = repeat callback_reply (List.length requests).
Proof.
  assert (Hr : forall tx reqs,
             snd (serve_callbacks tx reqs) = repeat callback_reply (List.length reqs)).
  { intros tx reqs. revert tx. induction reqs as [|q rest IH]; intros tx; [reflexivity|].
    simpl. destruct (callback_route tx q) as [[tx' sent] reply] eqn:Hc.
    specialize (IH tx'). destruct (serve_callbacks tx' rest) as [codes replies].
    simpl in *. rewrite IH.
    unfold callback_route in Hc.
    destruct (query_get q "code"); [destruct tx|]; injection Hc as _ _ <-; reflexivity. }
  split; [|apply Hr].
  induction requests as [|q rest IH]; [reflexivity|].
  simpl. unfold callback_route.
  destruct (query_get q "code") as [c|].
  - pose proof (serve_callbacks_taken rest) as H0.
    destruct (serve_callbacks None rest) as [codes replies]. simpl in *. now rewrite H0.
  - destruct (serve_callbacks (Some tt) rest) as [codes replies]. exact IH.
Qed.

(* ------------------------------------------------------------------ *)
(** ** [FileService] *)

(** [list_file_in_directory] succeeds exactly when every directory entry
    could be read, and then lists the entries that are files, in the
    order [read_dir] gives them. *)
Theorem collect_files_spec (entries : list DirEntry) (files : list string) :
  collect_files entries = Ok files <->
  exists pairs, entries = map Ok pairs /\ files = map fst (filter snd pairs).
Proof.
  split.
  - revert files. induction entries as [|en rest IH]; intros files H.
    + injection H as <-. now exists [].
    + destruct en as [[path is_file]|e]; simpl in H; [|discriminate].
      destruct (collect_files rest) as [fs|e] eqn:Hc; [|discriminate].
      injection H as <-.
      destruct (IH fs eq_refl) as [pairs [Hp Hf]].
      exists ((path, is_file) :: pairs). split; [now rewrite Hp|].
      simpl. destruct is_file; simpl; now rewrite Hf.
  - intros [pairs [-> ->]]. induction pairs as [|[p b] ps IH]; [reflexivity|].
    simpl. rewrite IH. destruct b; reflexivity.
Qed.

(** Whether the character [c] occurs in [s]. *)
Fixpoint has_char (c : ascii) (s : string) : bool :=
  match s with
  | EmptyString => false
  | String x rest => Ascii.eqb x c || has_char c rest
  end.

Lemma split_on_app_sep (c : ascii) (s r : string) :
  split_on c (s ++ String c r) = (split_on c s ++ split_on c r)%list.
Proof.
  induction s as [|x s IH]; simpl.
  - now rewrite Ascii.eqb_refl.
  - rewrite IH. destruct (Ascii.eqb x c); [reflexivity|].
    destruct (split_on c s) as [|h t] eqn:E; [now apply split_on_not_nil in E|].
    reflexivity.
Qed.

Lemma split_on_no_sep (c : ascii) (s : string) :
  has_char c s = false -> split_on c s = [s].
Proof.
  induction s as [|x s IH]; simpl; [reflexivity|].
  intros H. apply Bool.orb_false_iff in H as [Hx Hs].
  rewrite Hx, IH by exact Hs. reflexivity.
Qed.

Lemma split_on_pieces (c : ascii) (s p : string) :
  In p (split_on c s) -> has_char c p = false.
Proof.
  revert p. induction s as [|x s IH]; intros p; simpl.
  - intros [<-|[]]. reflexivity.
  - destruct (Ascii.eqb x c) eqn:Ex.
    + intros [<-|Hp]; [reflexivity|]. now apply IH.
    + destruct (split_on c s) as [|h t] eqn:E; [now apply split_on_not_nil in E|].
      intros [<-|Hp].
      * simpl. rewrite Ex. apply IH. now left.
      * apply IH. now right.
Qed.

Lemma next_back_In {A} (l : list A) (x : A) : next_back l = Some x -> In x l.
Proof.
  induction l as [|a l IH]; [discriminate|].
  destruct l as [|b l].
  - intros H. injection H as <-. now left.
  - intros H. right. apply IH. exact H.
Qed.

Lemma next_back_snoc {A} (l : list A) (x : A) : next_back (l ++ [x])%list = Some x.
Proof.
  induction l as [|a l IH]; [reflexivity|].
  simpl. destruct (l ++ [x])%list eqn:E; [now destruct l|]. exact IH.
Qed.

Lemma next_back_last_char (d : string) (c : ascii) :
  next_back (list_ascii_of_string d) = Some c -> exists d', d = (d' ++ String c "")%string.
Proof.
  induction d as [|x d IH]; [discriminate|].
  destruct d as [|y d].
  - intros H. injection H as ->. now exists "".
  - intros H. destruct (IH H) as [d' Hd]. exists (String x d'). simpl. now rewrite Hd.
Qed.

Lemma string_app_assoc (a b c : string) : (a ++ (b ++ c))%string = ((a ++ b) ++ c)%string.
Proof. induction a as [|x a IH]; simpl; [reflexivity|]. now rewrite IH. Qed.

(** A name returned by [path_file_name] is a plain component: no [/],
    not empty, neither [.] nor [..]. *)
Lemma path_file_name_component (p f : string) :
  path_file_name p = Some f ->
  has_char "/"%char f = false /\ f <> "" /\ f <> "." /\ f <> "..".
Proof.
  unfold path_file_name.
  destruct (next_back _) as [c|] eqn:E; [|discriminate].
  destruct (String.eqb c "..") eqn:Edd; [discriminate|].
  intros H. injection H as <-.
  apply next_back_In, filter_In in E as [Hin Hc].
  apply Bool.negb_true_iff, Bool.orb_false_iff in Hc as [He Hd].
  apply String.eqb_neq in He, Hd, Edd.
  repeat split; auto. now apply (split_on_pieces "/"%char p).
Qed.

Lemma path_file_name_after_sep (a f : string) :
  has_char "/"%char f = false -> f <> "" -> f <> "." -> f <> ".." ->
  path_file_name (a ++ String "/"%char f) = Some f.
Proof.
  intros Hs He Hd Hdd. unfold path_file_name.
  rewrite split_on_app_sep, (split_on_no_sep _ _ Hs), filter_app. simpl.
  apply String.eqb_neq in He, Hd, Hdd. rewrite He, Hd. simpl.
  rewrite next_back_snoc, Hdd. reflexivity.
Qed.

Lemma path_join_keeps_name (source dir f : string) :
  path_file_name source = Some f ->
  path_file_name (path_join dir f) = Some f.
Proof.
  intros Hf. destruct (path_file_name_component _ _ Hf) as (Hs & He & Hd & Hdd).
  unfold path_join.
  destruct (next_back (list_ascii_of_string dir)) as [c|] eqn:Ec.
  - destruct (Ascii.eqb c "/"%char) eqn:Eq.
    + apply Ascii.eqb_eq in Eq. subst c.
      destruct (next_back_last_char _ _ Ec) as [d' ->].
      rewrite <- string_app_assoc. now apply path_file_name_after_sep.
    + now apply path_file_name_after_sep.
  - unfold path_file_name. rewrite (split_on_no_sep _ _ Hs). simpl.
    apply String.eqb_neq in He, Hd, Hdd. rewrite He, Hd. simpl. now rewrite Hdd.
Qed.
(** [move_file] keeps the file's name: the destination it renames to,
    [destination_dir.join(file_name)], has the source's file name,
    whether or not [destination_dir] ends in a separator or is empty. *)
Theorem path_join_file_name (source dir f : string) :
  path_file_name source = Some f ->
  path_file_name (path_join dir f) = Some f.
Proof. apply path_join_keeps_name. Qed.


Lemma path_join_file_name_witness :
  path_file_name "to_send/book1.epub" = Some "book1.epub" /\
  path_join "sent/" "book1.epub" = "sent/book1.epub" /\
  path_file_name (path_join "sent/" "book1.epub") = Some "book1.epub".
Proof.
  split; [reflexivity|]. split; [reflexivity|].
  apply (path_join_file_name "to_send/book1.epub"). reflexivity.
Defined.

(** [move_file]: the rename is attempted (once, from [source]) exactly
    when the destination directory could be created and [source] has a
    file name [f], and its target is then [destination_dir] joined with
    [f]; the move succeeds exactly when, in addition, the rename does. *)
Theorem move_file_spec (w : World) (source dir : string) :
  (forall a b, In (EvMove a b) (fst (move_file w source dir)) <->
     a = source /\ exists f, w.(w_create_dir_all) dir = Ok tt /\
       path_file_name source = Some f /\ b = path_join dir f) /\
  (snd (move_file w source dir) = Ok tt <->
     exists f, w.(w_create_dir_all) dir = Ok tt /\ path_file_name source = Some f /\
       w.(w_rename) source (path_join dir f) = Ok tt) /\
  (List.length (filter (fun e => match e with EvMove _ _ => true | _ => false end)
                      (fst (move_file w source dir))) <= 1)%nat.
Proof.
  unfold move_file, bind, emit, lift, ret, ok_or. simpl.
  destruct (w_create_dir_all w dir) as [[]|e] eqn:Ec; simpl;
    [destruct (path_file_name source) as [f|] eqn:Ef; simpl;
     [destruct (w_rename w source (path_join dir f)) as [[]|e] eqn:Er; simpl|]|];
    (split; [intros a b; split|split; [split|cbn; lia]]).
  - intros [H|[H|[]]]; [discriminate|]. injection H as <- <-. eauto.
  - intros [-> [f' [_ [H ->]]]]. injection H as <-. now right; left.
  - eauto.
  - intros _. reflexivity.
  - intros [H|[H|[]]]; [discriminate|]. injection H as <- <-. eauto.
  - intros [-> [f' [_ [H ->]]]]. injection H as <-. now right; left.
  - discriminate.
  - intros [f' [_ [H Hr]]]. injection H as <-. congruence.
  - intros [H|[]]; discriminate.
  - intros [_ [f' [_ [H _]]]]. discriminate.
  - discriminate.
  - intros [f' [_ [H _]]]. discriminate.
  - intros [H|[]]; discriminate.
  - intros [_ [f' [H _]]]. discriminate.
  - discriminate.
  - intros [f' [H _]]. discriminate.
Qed.

(* ------------------------------------------------------------------ *)
(** ** [KindleService::send_file] *)

Lemma send_file_trace (w : World) (ks : KindleService) (tok p : string) :
  fst (send_file w ks tok p) =
    EvReadFile p ::
      match w.(w_open) p, w.(w_read_to_end) p with
      | Ok _, Ok bs => [EvSendMail tok (build_email ks (final_segment p) (base64_encode bs))]
      | _, _ => []
      end.
Proof.
  unfold send_file, bind, emit, lift, ret, fail. simpl.
  rewrite split_on_next_back. simpl.
  destruct (w_open w p) as [[]|e]; simpl; [|reflexivity].
  destruct (w_read_to_end w p) as [bs|e]; simpl; [|reflexivity].
  destruct (w_post_mail w tok _) as [r|e]; simpl; [|reflexivity].
  destruct (is_success (status r)); simpl; [reflexivity|].
  now destruct (resp_body r).
Qed.

(** [send_file] posts the mail exactly when the file could be opened and
    read, with the last [/]-piece of the path as attachment name (the
    "no filename" error is unreachable: [split] always has a last
    piece); it succeeds exactly when the gateway then answers with a 2xx
    status. *)
Theorem send_file_outcome (w : World) (ks : KindleService) (tok p : string) :
  fst (send_file w ks tok p) =
    EvReadFile p ::
      match w.(w_open) p, w.(w_read_to_end) p with
      | Ok _, Ok bs => [EvSendMail tok (build_email ks (final_segment p) (base64_encode bs))]
      | _, _ => []
      end /\
  (snd (send_file w ks tok p) = Ok tt <->
     exists bs r, w.(w_open) p = Ok tt /\ w.(w_read_to_end) p = Ok bs /\
       w.(w_post_mail) tok (build_email ks (final_segment p) (base64_encode bs)) = Ok r /\
       is_success r.(status) = true) /\
  snd (send_file w ks tok p) <> Err {| message := "Failed to get filename from file path" |}.
Proof.
  unfold send_file, bind, emit, lift, ret, fail. simpl.
  rewrite split_on_next_back. simpl.
  destruct (w_open w p) as [[]|e]; simpl.
  - destruct (w_read_to_end w p) as [bs|e]; simpl.
    + destruct (w_post_mail w tok _) as [r|e] eqn:Ep; simpl.
      * destruct (is_success (status r)) eqn:Es; simpl.
        -- repeat split; [|discriminate]. intros _. now exists bs, r.
        -- destruct (resp_body r); simpl; (repeat split; [discriminate| |discriminate]);
             intros (bs' & r' & _ & Hb & Hp & Hs'); injection Hb as <-; congruence.
      * repeat split; [discriminate| |discriminate].
        intros (bs' & r' & _ & Hb & Hp & _). injection Hb as <-. congruence.
    + repeat split; [discriminate| |discriminate].
      intros (bs' & r' & _ & Hb & _). discriminate.
  - repeat split; [discriminate| |discriminate].
    intros (bs' & r' & Ho & _). discriminate.
Qed.

(* ------------------------------------------------------------------ *)
(** ** [SendService::send_files] as a whole *)

Definition is_ok {A E} (r : Result A E) : bool :=
  match r with Ok _ => true | Err _ => false end.

Definition is_send_mail (e : Event) : bool :=
  match e with EvSendMail _ _ => true | _ => false end.

(** The sources of the [EvMove] events of a trace, in order. *)
Definition moved_sources (t : list Event) : list string :=
  flat_map (fun e => match e with EvMove a _ => [a] | _ => [] end) t.

Lemma authenticate_auth_only (w : World) (self : AzureService) :
  forallb is_auth_effect (fst (authenticate w self)) = true.
Proof.
  rewrite authenticate_eq.
  destruct (w_token_file w) as [t|e].
  - destruct (is_token_valid t (w_now_check w)); [reflexivity|].
    destruct (refresh_token t) as [rt|].
    + now destruct (w_refresh w rt).
    + rewrite interactive_flow_eq.
      destruct (w_code w) as [code|]; [destruct (w_exchange w code)|]; reflexivity.
  - rewrite interactive_flow_eq.
    destruct (w_code w) as [code|]; [destruct (w_exchange w code)|]; reflexivity.
Qed.

Lemma move_file_events (w : World) (source dir : string) (e : Event) :
  In e (fst (move_file w source dir)) ->
  e = EvCreateDir dir \/ exists b, e = EvMove source b.
Proof.
  unfold move_file, bind, emit, lift, ret, ok_or. simpl.
  destruct (w_create_dir_all w dir) as [[]|]; simpl; [|intros [<-|[]]; now left].
  destruct (path_file_name source) as [f|]; simpl; [|intros [<-|[]]; now left].
  destruct (w_rename w source (path_join dir f)); simpl;
    (intros [<-|[<-|[]]]; [now left|right; eauto]).
Qed.

Lemma send_file_events (w : World) (ks : KindleService) (tok p : string) (e : Event) :
  In e (fst (send_file w ks tok p)) ->
  e = EvReadFile p \/ exists em, e = EvSendMail tok em.
Proof.
  rewrite send_file_trace.
  destruct (w_open w p), (w_read_to_end w p); simpl;
    (intros [<-|H]; [now left|]); try contradiction.
  destruct H as [<-|[]]. right. eauto.
Qed.

Lemma moved_sources_move_file (w : World) (source dir : string) :
  moved_sources (fst (move_file w source dir)) =
    if is_ok (w.(w_create_dir_all) dir) && is_ok (ok_or (path_file_name source) tt)
    then [source] else [].
Proof.
  unfold move_file, bind, emit, lift, ret, ok_or. simpl.
  destruct (w_create_dir_all w dir) as [[]|]; simpl; [|reflexivity].
  destruct (path_file_name source) as [f|]; simpl; [|reflexivity].
  now destruct (w_rename w source (path_join dir f)).
Qed.

Lemma moved_sources_send_file (w : World) (ks : KindleService) (tok p : string) :
  moved_sources (fst (send_file w ks tok p)) = [].
Proof.
  rewrite send_file_trace.
  now destruct (w_open w p), (w_read_to_end w p).
Qed.

Lemma moved_sources_app (t1 t2 : list Event) :
  moved_sources (t1 ++ t2)%list = (moved_sources t1 ++ moved_sources t2)%list.
Proof. apply flat_map_app. Qed.

Lemma send_loop_moves_from (w : World) (self : SendService) (tok : string)
    (files : list string) (sc fc : nat) :
  let ks := self.(kindle_service) in
  let dir := self.(config).(ebook_sent_directory) in
  moved_sources (fst (send_loop w self tok files sc fc)) =
    filter (fun p => is_ok (snd (send_file w ks tok p)) &&
                     is_ok (w.(w_create_dir_all) dir) &&
                     is_ok (ok_or (path_file_name p) tt)) files /\
  (forall s f, snd (send_loop w self tok files sc fc) = Ok (s, f) ->
     s = (sc + List.length (filter (fun p => is_ok (snd (send_file w ks tok p)) &&
                                      is_ok (snd (move_file w p dir))) files))%nat).
Proof.
  intros ks dir. revert sc fc.
  induction files as [|p rest IH]; intros sc fc.
  - split; [reflexivity|]. intros s f Hs. injection Hs as <- _. simpl. lia.
  - simpl. unfold handle.
    pose proof (moved_sources_send_file w ks tok p) as Hms.
    pose proof (moved_sources_move_file w p dir) as Hmm.
    fold ks dir.
    destruct (send_file w ks tok p) as [t1 [a|e]]; simpl in Hms |- *.
    + destruct (move_file w p dir) as [t2 [a'|e']]; simpl in Hmm |- *;
        [destruct (IH (S sc) fc) as [IH1 IH2]|destruct (IH sc (S fc)) as [IH1 IH2]];
        match goal with
        | |- context [send_loop w self tok rest ?s ?f] =>
            destruct (send_loop w self tok rest s f) as [tr rr]
        end; simpl in *; rewrite !moved_sources_app, Hms, Hmm, IH1;
        (split; [|intros s f Hs; rewrite (IH2 s f Hs); simpl; lia]);
        destruct (is_ok (w_create_dir_all w dir)), (is_ok (ok_or (path_file_name p) tt));
        reflexivity.
    + destruct (IH sc (S fc)) as [IH1 IH2].
      destruct (send_loop w self tok rest sc (S fc)) as [tr rr]; simpl in *.
      rewrite moved_sources_app, Hms, IH1. split; [reflexivity|].
      intros s f Hs. now rewrite (IH2 s f Hs).
Qed.

(** The loop relocates a file only after its mail went out: the moves
    are attempted for exactly the files whose send succeeded (and for
    which the destination directory could be created and a file name
    found), in the order of [files]; the files counted as successes are
    exactly those whose send and move both succeeded. *)
Theorem send_loop_moves (w : World) (self : SendService) (tok : string)
    (files : list string) :
  let ks := self.(kindle_service) in
  let dir := self.(config).(ebook_sent_directory) in
  moved_sources (fst (send_loop w self tok files 0 0)) =
    filter (fun p => is_ok (snd (send_file w ks tok p)) &&
                     is_ok (w.(w_create_dir_all) dir) &&
                     is_ok (ok_or (path_file_name p) tt)) files /\
  (forall s f, snd (send_loop w self tok files 0 0) = Ok (s, f) ->
     s = List.length (filter (fun p => is_ok (snd (send_file w ks tok p)) &&
                                       is_ok (snd (move_file w p dir))) files)).
Proof.
  intros ks dir.
  destruct (send_loop_moves_from w self tok files 0 0) as [H1 H2]. split; [exact H1|].
  intros s f Hs. now rewrite (H2 s f Hs).
Qed.


Definition mail_token_is (tok : string) (e : Event) : bool :=
  match e with EvSendMail t _ => String.eqb t tok | _ => true end.

Lemma send_loop_token (w : World) (self : SendService) (tok : string) (files : list string) :
  forall sc fc, forallb (mail_token_is tok) (fst (send_loop w self tok files sc fc)) = true.
Proof.
  induction files as [|p rest IH]; intros sc fc; [reflexivity|].
  simpl. unfold handle.
  assert (Hs : forallb (mail_token_is tok)
                 (fst (send_file w self.(kindle_service) tok p)) = true).
  { apply forallb_forall. intros e He.
    destruct (send_file_events _ _ _ _ _ He) as [->|[em ->]]; [reflexivity|].
    apply String.eqb_refl. }
  assert (Hm : forallb (mail_token_is tok)
                 (fst (move_file w p self.(config).(ebook_sent_directory))) = true).
  { apply forallb_forall. intros e He.
    destruct (move_file_events _ _ _ _ He) as [->|[b ->]]; reflexivity. }
  destruct (send_file w (kindle_service self) tok p) as [t1 [a|e]]; simpl in Hs.
  - destruct (move_file w p (ebook_sent_directory (config self))) as [t2 [a'|e']];
      simpl in Hm;
      match goal with
      | |- context [send_loop w self tok rest ?s ?f] =>
          pose proof (IH s f) as Hr; destruct (send_loop w self tok rest s f) as [tr rr]
      end; simpl in *; rewrite !forallb_app, Hs, Hm; exact Hr.
  - pose proof (IH sc (S fc)) as Hr.
    destruct (send_loop w self tok rest sc (S fc)) as [tr rr]; simpl in *.
    rewrite forallb_app, Hs. exact Hr.
Qed.

Lemma list_file_in_directory_trace (w : World) (d : string) :
  fst (list_file_in_directory w d) = [EvListDir d].
Proof.
  unfold list_file_in_directory, bind, emit, lift. simpl.
  now destruct (w_read_dir w d).
Qed.

Lemma send_files_eq (w : World) (self : SendService) :
  send_files w self =
    let d := self.(config).(ebook_to_send_directory) in
    match snd (list_file_in_directory w d) with
    | Err e => ([EvListDir d], Err e)
    | Ok files =>
        if is_nil files then ([EvListDir d], Ok tt) else
        match authenticate w self.(azure_service) with
        | (ta, Err e) => (EvListDir d :: ta, Err e)
        | (ta, Ok tok) =>
            match send_loop w self tok files 0 0 with
            | (tloop, Err e) => (EvListDir d :: ta ++ tloop, Err e)
            | (tloop, Ok (s, f)) =>
                (EvListDir d :: ta ++ tloop,
                 if (0 <? f)%nat
                 then Err {| message := "Failed to process " ++ nat_to_string f ++ " files" |}
                 else Ok tt)
            end
        end
    end%list.
Proof.
  cbv zeta.
  pose proof (list_file_in_directory_trace w (ebook_to_send_directory (config self))) as Ht.
  unfold send_files, bind at 1.
  destruct (list_file_in_directory w (ebook_to_send_directory (config self)))
    as [tl [files|e]]; simpl in Ht |- *; subst tl; [|reflexivity].
  destruct (is_nil files); [reflexivity|].
  unfold bind at 1.
  destruct (authenticate w (azure_service self)) as [ta [tok|e]]; [|reflexivity].
  unfold bind at 1.
  destruct (send_loop w self tok files 0 0) as [tloop [[s f]|e]]; simpl;
    [|reflexivity].
  destruct (0 <? f)%nat; simpl; now rewrite !app_nil_r.
Qed.

(** [send_files] authenticates once, before any mail: every mail of the
    run is sent with the access token that this one [authenticate] call
    returned. *)
Theorem send_files_single_token (w : World) (self : SendService) (t : string) (em : Email) :
  In (EvSendMail t em) (fst (send_files w self)) ->
  snd (authenticate w self.(azure_service)) = Ok t.
Proof.
  rewrite send_files_eq. cbv zeta.
  pose proof (authenticate_auth_only w (azure_service self)) as Ha.
  destruct (snd (list_file_in_directory w _)) as [files|e];
    [|intros [H|[]]; discriminate].
  destruct (is_nil files); [intros [H|[]]; discriminate|].
  destruct (authenticate w (azure_service self)) as [ta [tok|e]]; simpl in Ha |- *.
  - pose proof (send_loop_token w self tok files 0 0) as Hl.
    assert (Hin : In (EvSendMail t em) (ta ++ fst (send_loop w self tok files 0 0))%list ->
                  tok = t).
    { intros H. apply in_app_or in H as [H|H].
      - apply forallb_forall with (x := EvSendMail t em) in Ha; [discriminate|exact H].
      - apply forallb_forall with (x := EvSendMail t em) in Hl; [|exact H].
        simpl in Hl. now apply String.eqb_eq in Hl. }
    destruct (send_loop w self tok files 0 0) as [tloop [[s f]|e]];
      (intros [H|H]; [discriminate|]); now rewrite (Hin H).
  - intros [H|H]; [discriminate|].
    apply forallb_forall with (x := EvSendMail t em) in Ha; [discriminate|exact H].
Qed.

Lemma send_files_single_token_witness :
  let w := sample_world (Ok (mk_token "cached" (Some 2000) None)) (Err "unused") "" in
  In (EvSendMail "cached" (build_email sample_service.(kindle_service) "book1.epub"
                             (base64_encode [x01; x02; x03; x04; x05])))
     (fst (send_files w sample_service)) /\
  snd (authenticate w sample_azure) = Ok "cached".
Proof.
  intros w.
  assert (H : In (EvSendMail "cached" (build_email sample_service.(kindle_service) "book1.epub"
                                        (base64_encode [x01; x02; x03; x04; x05])))
                 (fst (send_files w sample_service))).
  { vm_compute. right. right. right. left. reflexivity. }
  split; [exact H|].
  exact (send_files_single_token w sample_service "cached" _ H).
Defined.

(** When authentication fails, [send_files] stops with its error right
    after the listing and the authentication attempt: no file is read,
    no mail is sent, nothing is moved. *)
Theorem send_files_auth_failure (w : World) (self : SendService) (files : list string)
    (ta : list Event) (e : KindleError) :
  snd (list_file_in_directory w self.(config).(ebook_to_send_directory)) = Ok files ->
  files <> [] ->
  authenticate w self.(azure_service) = (ta, Err e) ->
  send_files w self = (EvListDir self.(config).(ebook_to_send_directory) :: ta, Err e) /\
  forallb (fun ev => negb (is_send_mail ev || is_relocation ev ||
                           match ev with EvReadFile _ => true | _ => false end))
          (fst (send_files w self)) = true.
Proof.
  intros Hl Hne Ha.
  assert (Hs : send_files w self =
                 (EvListDir self.(config).(ebook_to_send_directory) :: ta, Err e)).
  { rewrite send_files_eq. cbv zeta. rewrite Hl.
    destruct files; [congruence|]. simpl. now rewrite Ha. }
  split; [exact Hs|]. rewrite Hs. simpl.
  pose proof (authenticate_auth_only w self.(azure_service)) as Hauth.
  rewrite Ha in Hauth. simpl in Hauth.
  apply forallb_forall. intros ev Hev.
  apply forallb_forall with (x := ev) in Hauth; [|exact Hev].
  destruct ev; try discriminate; reflexivity.
Qed.

Lemma send_files_auth_failure_witness :
  let w := sample_world (Ok (mk_token "old" (Some 500) (Some "r"))) (Err "invalid_grant") "" in
  send_files w sample_service =
    ([EvListDir "to_send"; EvReadTokenFile; EvTokenRequest "refresh_token"],
     Err (err_with "Error refreshing token: " "invalid_grant")) /\
  forallb (fun ev => negb (is_send_mail ev || is_relocation ev ||
                           match ev with EvReadFile _ => true | _ => false end))
          (fst (send_files w sample_service)) = true.
Proof.
  intros w.
  apply (send_files_auth_failure w sample_service ["to_send/book1.epub"; "to_send/book2.epub"]
           [EvReadTokenFile; EvTokenRequest "refresh_token"]
           (err_with "Error refreshing token: " "invalid_grant")); vm_compute;
    [reflexivity|discriminate|reflexivity].
Defined.

(** When the source directory cannot be listed, [send_files] fails with
    the listing's error before any other effect. *)
Theorem send_files_listing_failure (w : World) (self : SendService) (e : KindleError) :
  snd (list_file_in_directory w self.(config).(ebook_to_send_directory)) = Err e ->
  send_files w self = ([EvListDir self.(config).(ebook_to_send_directory)], Err e).
Proof. intros Hl. rewrite send_files_eq. cbv zeta. now rewrite Hl. Qed.

Definition unreadable_world : World :=
  {| w_token_file := Err "unused"; w_now_check := 0; w_now_stamp := 0;
     w_refresh := fun _ => Err "unused"; w_exchange := fun _ => Err "unused";
     w_write_token := fun _ => Ok tt; w_code := Err tt;
     w_read_dir := fun _ => Err "No such file or directory";
     w_open := fun _ => Ok tt; w_read_to_end := fun _ => Ok [];
     w_post_mail := fun _ _ => Err "unused";
     w_create_dir_all := fun _ => Ok tt; w_rename := fun _ _ => Ok tt;
     w_config := Ok sample_config |}.

Lemma send_files_listing_failure_witness :
  send_files unreadable_world sample_service =
    ([EvListDir "to_send"], Err (err_with "Error reading directory: " "No such file or directory")).
Proof. apply send_files_listing_failure. reflexivity. Defined.

Lemma filter_length_full {A} (g : A -> bool) (l : list A) :
  List.length (filter g l) = List.length l <-> forallb g l = true.
Proof.
  induction l as [|a l IH]; simpl; [tauto|].
  pose proof (filter_length_le g l) as Hle.
  destruct (g a); simpl; [rewrite <- IH; lia|].
  split; [lia|discriminate].
Qed.

(** Once the files are listed and a token obtained, [send_files]
    succeeds exactly when every listed file was both sent and moved. *)
Theorem send_files_ok_iff_all_delivered (w : World) (self : SendService)
    (files : list string) (ta : list Event) (tok : string) :
  snd (list_file_in_directory w self.(config).(ebook_to_send_directory)) = Ok files ->
  authenticate w self.(azure_service) = (ta, Ok tok) ->
  (snd (send_files w self) = Ok tt <->
   forallb (fun p => is_ok (snd (send_file w self.(kindle_service) tok p)) &&
                     is_ok (snd (move_file w p self.(config).(ebook_sent_directory))))
           files = true).
Proof.
  intros Hl Ha. rewrite send_files_eq. cbv zeta. rewrite Hl.
  destruct files as [|p rest]; [simpl; tauto|]. simpl is_nil. cbv iota. rewrite Ha.
  destruct (send_loop_counts w self tok (p :: rest) 0 0) as [s [f [H1 [H2 _]]]].
  pose proof (proj2 (send_loop_moves_from w self tok (p :: rest) 0 0) s f H1) as Hs.
  cbv zeta in Hs. rewrite Nat.add_0_l in Hs.
  destruct (send_loop w self tok (p :: rest) 0 0) as [tloop r]. simpl in H1. subst r.
  rewrite <- filter_length_full, <- Hs.
  simpl in H2. destruct (0 <? f)%nat eqn:Hf; simpl.
  - apply Nat.ltb_lt in Hf. split; [discriminate|intros E; exfalso; lia].
  - apply Nat.ltb_ge in Hf. split; [lia|reflexivity].
Qed.

Lemma send_files_ok_iff_all_delivered_witness :
  let w := sample_world (Ok (mk_token "cached" (Some 2000) None)) (Err "unused") "book2.epub" in
  snd (send_files w sample_service) <> Ok tt /\
  forallb (fun p => is_ok (snd (send_file w sample_service.(kindle_service) "cached" p)) &&
                    is_ok (snd (move_file w p "sent")))
          ["to_send/book1.epub"; "to_send/book2.epub"] = false.
Proof.
  intros w.
  pose proof (send_files_ok_iff_all_delivered w sample_service
                ["to_send/book1.epub"; "to_send/book2.epub"] [EvReadTokenFile] "cached"
                eq_refl eq_refl) as H.
  split.
  - intros Hok. apply H in Hok. vm_compute in Hok. discriminate.
  - vm_compute. reflexivity.
Defined.

(** [execute_send_command]: when the configuration cannot be loaded,
    nothing else is done and the process exits with status 1. *)
Theorem execute_send_command_config_error (w : World) (e : KindleError) :
  w.(w_config) = Err e ->
  execute_send_command w = ([], Err e) /\ exit_code w = 1.
Proof.
  intros Hc.
  assert (H : execute_send_command w = ([], Err e)).
  { unfold execute_send_command, bind. now rewrite Hc. }
  split; [exact H|]. unfold exit_code. now rewrite H.
Qed.

Lemma execute_send_command_config_error_witness :
  let w := {| w_token_file := Err "unused"; w_now_check := 0; w_now_stamp := 0;
              w_refresh := fun _ => Err "unused"; w_exchange := fun _ => Err "unused";
              w_write_token := fun _ => Ok tt; w_code := Err tt;
              w_read_dir := fun _ => Ok []; w_open := fun _ => Ok tt;
              w_read_to_end := fun _ => Ok []; w_post_mail := fun _ _ => Err "unused";
              w_create_dir_all := fun _ => Ok tt; w_rename := fun _ _ => Ok tt;
              w_config := Err {| message := "Failed to read config file" |} |} in
  execute_send_command w = ([], Err {| message := "Failed to read config file" |}) /\
  exit_code w = 1.
Proof. intros w. apply execute_send_command_config_error. reflexivity. Defined.

Lemma move_file_move_target (w : World) (source dir a b : string) :
  In (EvMove a b) (fst (move_file w source dir)) ->
  a = source /\ exists f, path_file_name source = Some f /\ b = path_join dir f.
Proof.
  unfold move_file, bind, emit, lift, ret, ok_or. simpl.
  destruct (w_create_dir_all w dir) as [[]|]; simpl; [|intros [H|[]]; discriminate].
  destruct (path_file_name source) as [f|]; simpl; [|intros [H|[]]; discriminate].
  destruct (w_rename w source (path_join dir f)); simpl;
    (intros [H|[H|[]]]; [discriminate|injection H as <- <-; eauto]).
Qed.

Lemma send_file_no_move (w : World) (ks : KindleService) (tok p a b : string) :
  ~ In (EvMove a b) (fst (send_file w ks tok p)).
Proof.
  rewrite send_file_trace.
  destruct (w_open w p), (w_read_to_end w p); simpl; intuition discriminate.
Qed.

Lemma send_loop_move_target (w : World) (self : SendService) (tok : string)
    (files : list string) (a b : string) :
  forall sc fc,
  In (EvMove a b) (fst (send_loop w self tok files sc fc)) ->
  In a files /\ is_ok (snd (send_file w self.(kindle_service) tok a)) = true /\
  exists f, path_file_name a = Some f /\ b = path_join self.(config).(ebook_sent_directory) f.
Proof.
  induction files as [|p rest IH]; intros sc fc; [intros []|].
  simpl. unfold handle.
  pose proof (send_file_no_move w self.(kindle_service) tok p a b) as Hs.
  pose proof (move_file_move_target w p self.(config).(ebook_sent_directory) a b) as Hm.
  destruct (send_file w (kindle_service self) tok p) as [t1 [u|e]] eqn:Es; simpl in Hs.
  - destruct (move_file w p (ebook_sent_directory (config self))) as [t2 [u'|e']];
      simpl in Hm;
      match goal with
      | |- context [send_loop w self tok rest ?s ?f] =>
          pose proof (IH s f) as Hr; destruct (send_loop w self tok rest s f) as [tr rr]
      end; simpl in *;
      (intros H; apply in_app_or in H as [H|H]; [contradiction|];
       apply in_app_or in H as [H|H];
       [destruct (Hm H) as [-> Hf]; rewrite Es; simpl; auto|
        destruct (Hr H) as (Hin & Hok & Hf); auto]).
  - pose proof (IH sc (S fc)) as Hr.
    destruct (send_loop w self tok rest sc (S fc)) as [tr rr]; simpl in *.
    intros H. apply in_app_or in H as [H|H]; [contradiction|].
    destruct (Hr H) as (Hin & Hok & Hf); auto.
Qed.

(** A file is moved to the sent directory only if it was listed and its
    mail, sent with the token of the run, was accepted; it is moved under
    its own file name. *)
Theorem send_files_moves_keep_names (w : World) (self : SendService) (a b : string) :
  In (EvMove a b) (fst (send_files w self)) ->
  (exists files, snd (list_file_in_directory w self.(config).(ebook_to_send_directory))
                   = Ok files /\ In a files) /\
  (exists tok, snd (authenticate w self.(azure_service)) = Ok tok /\
               is_ok (snd (send_file w self.(kindle_service) tok a)) = true) /\
  (exists f, path_file_name a = Some f /\
             b = path_join self.(config).(ebook_sent_directory) f /\
             path_file_name b = Some f).
Proof.
  rewrite send_files_eq. cbv zeta.
  pose proof (authenticate_auth_only w (azure_service self)) as Ha.
  destruct (snd (list_file_in_directory w _)) as [files|e];
    [|intros [H|[]]; discriminate].
  destruct (is_nil files); [intros [H|[]]; discriminate|].
  destruct (authenticate w (azure_service self)) as [ta [tok|e]]; simpl in Ha |- *.
  - pose proof (send_loop_move_target w self tok files a b 0 0) as Hl.
    assert (Hin : In (EvMove a b) (ta ++ fst (send_loop w self tok files 0 0))%list ->
                  In a files /\ is_ok (snd (send_file w self.(kindle_service) tok a)) = true /\
                  exists f, path_file_name a = Some f /\
                            b = path_join self.(config).(ebook_sent_directory) f).
    { intros H. apply in_app_or in H as [H|H]; [|exact (Hl H)].
      apply forallb_forall with (x := EvMove a b) in Ha; [discriminate|exact H]. }
    assert (Hfin : In (EvMove a b) (ta ++ fst (send_loop w self tok files 0 0))%list ->
      (exists files', (Ok files : Result (list string) KindleError) = Ok files' /\
                      In a files') /\
      (exists tok', (Ok tok : Result string KindleError) = Ok tok' /\
                    is_ok (snd (send_file w self.(kindle_service) tok' a)) = true) /\
      (exists f, path_file_name a = Some f /\
                 b = path_join self.(config).(ebook_sent_directory) f /\
                 path_file_name b = Some f)).
    { intros H. destruct (Hin H) as (Hf & Hok & f & Hn & Hb).
      split; [eauto|]. split; [eauto|]. exists f. split; [exact Hn|]. split; [exact Hb|].
      rewrite Hb. exact (path_join_keeps_name a _ f Hn). }
    destruct (send_loop w self tok files 0 0) as [tloop [[s f]|e]];
      (intros [H|H]; [discriminate|]); exact (Hfin H).
  - intros [H|H]; [discriminate|].
    apply forallb_forall with (x := EvMove a b) in Ha; [discriminate|exact H].
Qed.

Lemma send_files_moves_keep_names_witness :
  let w := sample_world (Ok (mk_token "cached" (Some 2000) None)) (Err "unused") "book2.epub" in
  In (EvMove "to_send/book1.epub" "sent/book1.epub") (fst (send_files w sample_service)) /\
  (exists f, path_file_name "to_send/book1.epub" = Some f /\
             "sent/book1.epub" = path_join "sent" f /\
             path_file_name "sent/book1.epub" = Some f).
Proof.
  intros w.
  assert (H : In (EvMove "to_send/book1.epub" "sent/book1.epub")
                 (fst (send_files w sample_service))).
  { vm_compute. repeat (first [left; reflexivity | right]). }
  split; [exact H|].
  exact (proj2 (proj2 (send_files_moves_keep_names w sample_service _ _ H))).
Defined.

Lemma string_of_list_ascii_length (l : list ascii) :
  String.length (string_of_list_ascii l) = List.length l.
Proof. induction l as [|c l IH]; simpl; [reflexivity|now rewrite IH]. Qed.

(** A character of the Base64 output: an alphabet symbol or the padding. *)
Definition b64_symbol (c : ascii) : Prop := In c b64_alphabet \/ c = pad.

Lemma b64_char_symbol (s : Z) : b64_symbol (b64_char s).
Proof.
  left. unfold b64_char.
  destruct (Nat.lt_ge_cases (Z.to_nat s) (List.length b64_alphabet)) as [H|H].
  - now apply nth_In.
  - rewrite nth_overflow by exact H. simpl. now left.
Qed.

Lemma firstn_map_b64_symbols (n : nat) (l : list Z) :
  Forall b64_symbol (firstn n (map b64_char l)).
Proof.
  apply Forall_forall. intros c Hc.
  assert (Hin : In c (map b64_char l)).
  { rewrite <- (firstn_skipn n (map b64_char l)). apply in_or_app. now left. }
  apply in_map_iff in Hin as [s [<- _]]. apply b64_char_symbol.
Qed.

Lemma pad_symbol : b64_symbol pad.
Proof. now right. Qed.

(** The attachment's [contentBytes] is the padded Base64 text of the
    file: four characters per started group of three bytes, each one of
    the 64 symbols of the standard alphabet or the padding [=]. *)
Theorem base64_encode_shape (bs : list byte) :
  String.length (base64_encode bs) = (4 * ((List.length bs + 2) / 3))%nat /\
  Forall b64_symbol (list_ascii_of_string (base64_encode bs)).
Proof.
  unfold base64_encode. rewrite string_of_list_ascii_length, list_ascii_of_string_of_list_ascii.
  assert (H : forall n bs, (List.length bs <= n)%nat ->
            List.length (encode_chars bs) = (4 * ((List.length bs + 2) / 3))%nat /\
            Forall b64_symbol (encode_chars bs)).
  { induction n as [|n IH]; intros l Hl.
    - destruct l; [split; [reflexivity|constructor]|simpl in Hl; lia].
    - destruct l as [|b0 [|b1 [|b2 rest]]].
      + split; [reflexivity|constructor].
      + cbn [encode_chars]. split; [reflexivity|].
        apply Forall_app. split; [apply firstn_map_b64_symbols|].
        repeat apply Forall_cons; [exact pad_symbol|exact pad_symbol|apply Forall_nil].
      + cbn [encode_chars]. split; [reflexivity|].
        apply Forall_app. split; [apply firstn_map_b64_symbols|].
        apply Forall_cons; [exact pad_symbol|apply Forall_nil].
      + cbn [List.length] in Hl. destruct (IH rest ltac:(lia)) as [H1 H2].
        cbn [encode_chars]. split.
        * rewrite length_app, H1. cbn [List.length].
          replace (S (S (S (List.length rest))) + 2)%nat
            with ((List.length rest + 2) + 1 * 3)%nat by lia.
          rewrite Nat.div_add by lia. unfold sextets. cbn [map List.length]. lia.
        * apply Forall_app. split; [|exact H2].
          rewrite <- (firstn_all (map b64_char _)). apply firstn_map_b64_symbols. }
  exact (H (List.length bs) bs (le_n _)).
Qed.
